(** * auto_blogger.py: the dedup store, the two source adapters and the run loop

    A shallow embedding of [src/auto_blogger.py].  Python [str] values are
    byte strings (UTF-8), so that [==] on them is equality of [string]s; the
    JSON file [posted_ids.json] is the list it holds; the network, the
    rewrite model and the publishing platform are inputs of the model
    (replies and per-call outcomes), and every call that leaves the process
    is recorded in a trace. *)

From Stdlib Require Import ZArith Lia.
From stdpp Require Import base list strings pretty.

(** ** Python values *)

(** The values that reach the pipeline out of a decoded JSON payload:
    [None] (also what [dict.get] gives for an absent key), booleans,
    integers and strings.  Floats and nested containers are not part of the
    model's input type. *)
Inductive pyval : Type :=
| PyNone
| PyBool (b : bool)
| PyInt (n : Z)
| PyStr (s : string).

(** [str(v)], as an f-string renders [{v}]. *)
Definition py_str (v : pyval) : string :=
  match v with
  | PyNone => "None"
  | PyBool true => "True"
  | PyBool false => "False"
  | PyInt n => pretty n
  | PyStr s => s
  end.

(** Truth value of [v] in [if v:] and [not v]. *)
Definition truthy (v : pyval) : bool :=
  match v with
  | PyNone => false
  | PyBool b => b
  | PyInt n => negb (n =? 0)%Z
  | PyStr s => negb (bool_decide (s = ""))
  end.

(** [v in strs] for a list of [str]: only a [str] compares equal to one. *)
Definition py_in (v : pyval) (strs : list string) : bool :=
  match v with
  | PyStr s => bool_decide (s ∈ strs)
  | _ => false
  end.

(** A call that either returns or lets an exception escape. *)
Inductive result (A : Type) : Type :=
| Returned (a : A)
| Raised.
Arguments Returned {A} a.
Arguments Raised {A}.

(** ** Configuration *)

Definition RSS_URL : string := "https://nepsestock.com/feed".
Definition JSON_URL : string := "https://bajarkochirfar.com/wp-json/api/v1/short-news".
Definition MAX_POSTS_PER_RUN : nat := 999.

(** ** Data model *)

(** The dictionary both adapters append to their output. *)
Record Article : Type := mkArticle {
  unique_id : string;
  title : pyval;
  content : pyval;
  link : pyval;
  date : pyval;
  source : string
}.

(** The dictionary [rewrite_with_gemini] returns on success. *)
Record Post : Type := mkPost {
  post_title : string;
  post_content : string
}.

(** What a run does to the outside, in the order it does it: the two
    fetches, the call of [rewrite_with_gemini] for an article, the two calls
    of [create_post] on the platform, a write of [DB_FILE] and the pause
    after a publish.  Prints are left out. *)
Inductive event : Type :=
| ERequestsGet (url : string)
| EFeedParse (url : string)
| ERewrite (a : Article)
| EUsersGet
| EPostsInsert (p : Post)
| EWriteDb (ids : list string)
| ESleep (seconds : nat).

(** What [run] and [save_posted_id] share: the one list object bound to
    [posted_ids] in [run] and to the parameter [current_ids] in
    [save_posted_id], the file [DB_FILE] ([None]: it does not exist), and
    the trace. *)
Record state : Type := mkState {
  ids_obj : list string;
  db_file : option (list string);
  trace : list event
}.

Definition log (e : event) (st : state) : state :=
  mkState (ids_obj st) (db_file st) (trace st ++ [e]).

(** The file contents written during a trace, oldest first. *)
Fixpoint writes (tr : list event) : list (list string) :=
  match tr with
  | [] => []
  | EWriteDb ids :: tr' => ids :: writes tr'
  | _ :: tr' => writes tr'
  end.

(** The articles handed to the rewrite model during a trace, oldest first. *)
Fixpoint attempted (tr : list event) : list Article :=
  match tr with
  | [] => []
  | ERewrite a :: tr' => a :: attempted tr'
  | _ :: tr' => attempted tr'
  end.

(** The posts submitted to the platform during a trace, oldest first. *)
Fixpoint submitted (tr : list event) : list Post :=
  match tr with
  | [] => []
  | EPostsInsert p :: tr' => p :: submitted tr'
  | _ :: tr' => submitted tr'
  end.

(** ** Authentication: [get_service] *)

Inductive Service : Type := BloggerService.

(** What [get_service] finds: the environment variable, the two local files,
    and for each of its three ways in whether it yields a client ([None]:
    some step of it raises). *)
Record auth_env : Type := mkAuth {
  SERVICE_ACCOUNT_KEY : option string;
  service_account_login : option Service;
  token_pickle_exists : bool;
  token_pickle_login : option Service;
  client_secret_exists : bool;
  browser_login : option Service
}.

Definition key_is_set (k : option string) : bool :=
  match k with
  | Some s => negb (bool_decide (s = ""))
  | None => false
  end.

Definition get_service (env : auth_env) : option Service :=
  if key_is_set (SERVICE_ACCOUNT_KEY env) then
    (* try: return build(...)  except: return None *)
    service_account_login env
  else
    match (if token_pickle_exists env then token_pickle_login env else None) with
    | Some service => Some service
    | None =>
        if client_secret_exists env then browser_login env else None
    end.

(** ** Source adapters *)

(** One element of the API's [data] list; each field is what [item.get]
    returns for it. *)
Record api_item : Type := mkItem {
  item_id : pyval;
  item_category_name : pyval;
  item_title : pyval;
  item_content : pyval;
  item_original_news_link : pyval;
  item_date : pyval
}.

(** The decoded body: [data.get('success')] and [data.get('data', [])].
    The type holds the bodies the adapter can read: a dict whose [data], if
    present, is a list of dicts.  On any other decoded body the reads after
    the [try] block raise; such bodies are no values of this type, and
    nothing below speaks about them. *)
Record api_body : Type := mkBody {
  body_success : pyval;
  body_data : list api_item
}.

(** Outcome of the [try] block of [fetch_json_news]: [requests.get],
    [raise_for_status] or [response.json()] raised, or the body was
    decoded. *)
Inductive http_reply : Type :=
| HttpFailed
| HttpJson (data : api_body).

Definition required_categories : list string := ["सेयर बजार"; "अर्थतन्त्र"].

(** The [for item in data.get('data', [])] loop; [articles] is the list
    being appended to. *)
Fixpoint json_loop (items : list api_item) (posted_ids : list string)
    (articles : list Article) : list Article :=
  match items with
  | [] => articles
  | item :: rest =>
      let uid := "json_" +:+ py_str (item_id item) in
      if py_in (item_category_name item) required_categories
         && bool_decide (uid ∉ posted_ids)
      then json_loop rest posted_ids
             (articles ++ [mkArticle uid (item_title item) (item_content item)
                             (item_original_news_link item) (item_date item)
                             "bajarkochirfar.com"])
      else json_loop rest posted_ids articles
  end.

Definition fetch_json_news (reply : http_reply) (posted_ids : list string)
    : list Article :=
  match reply with
  | HttpFailed => []
  | HttpJson data =>
      if negb (truthy (body_success data)) then []
      else json_loop (body_data data) posted_ids []
  end.

(** One element of [feed.entries].  [entry_link] and [entry_title] are
    [None] when the attribute is missing (reading it raises);
    [entry_summary] is [None] when [hasattr(entry, 'summary')] is false;
    [entry_content] lists the values of the content blocks, empty when
    [entry.content[0]] cannot be read. *)
Record feed_entry : Type := mkEntry {
  entry_link : option string;
  entry_title : option string;
  entry_summary : option string;
  entry_content : list string
}.

(** Outcome of [feedparser.parse(RSS_URL)]. *)
Inductive parse_reply : Type :=
| ParseRaised
| ParseFeed (entries : list feed_entry).

(** [entry.summary if hasattr(entry, 'summary') else entry.content[0].value] *)
Definition entry_body (entry : feed_entry) : result string :=
  match entry_summary entry with
  | Some s => Returned s
  | None =>
      match entry_content entry with
      | c :: _ => Returned c
      | [] => Raised
      end
  end.

(** The [for entry in feed.entries] loop.  Nothing catches what the
    attribute reads raise. *)
Fixpoint rss_loop (entries : list feed_entry) (posted_ids : list string)
    (articles : list Article) : result (list Article) :=
  match entries with
  | [] => Returned articles
  | entry :: rest =>
      match entry_link entry with
      | None => Raised
      | Some lnk =>
          let uid := "rss_" +:+ lnk in
          if bool_decide (uid ∉ posted_ids) then
            match entry_body entry with
            | Raised => Raised
            | Returned body =>
                match entry_title entry with
                | None => Raised
                | Some t =>
                    rss_loop rest posted_ids
                      (articles ++ [mkArticle uid (PyStr t) (PyStr body)
                                      (PyStr lnk) PyNone "nepsestock.com"])
                end
            end
          else rss_loop rest posted_ids articles
      end
  end.

Definition fetch_rss_news (reply : parse_reply) (posted_ids : list string)
    : result (list Article) :=
  match reply with
  | ParseRaised => Returned []
  | ParseFeed entries => rss_loop entries posted_ids []
  end.

(** ** Dedup store *)

(** [get_posted_ids()] on a file that is absent or holds a JSON list of
    strings.  A file that [json.load] cannot decode makes the call raise; it
    is no value of the type of [db]. *)
Definition get_posted_ids (db : option (list string)) : list string :=
  match db with
  | Some ids => ids
  | None => []
  end.

(** [l[-200:]] *)
Definition last_200 (l : list string) : list string :=
  drop (length l - 200) l.

(** What a call hands back to its caller: [save_posted_id] has no [return]
    statement, so its caller receives [None]. *)
Inductive retval : Type :=
| RetNone
| RetIds (ids : list string).

(** [save_posted_id(post_id, current_ids)], called with the list object of
    the state as [current_ids].  The [append] acts on that object; the
    slice is bound to the local name only, and it is the local name that is
    written to the file. *)
Definition save_posted_id (post_id : string) (st : state) : retval * state :=
  let obj := ids_obj st ++ [post_id] in
  let current_ids :=
    if bool_decide (200 < length obj) then last_200 obj else obj in
  (RetNone, mkState obj (Some current_ids) (trace st ++ [EWriteDb current_ids])).

(** ** Rewrite, publish and the run loop *)

Inductive run_outcome : Type :=
| Aborted (st : state)
| Crashed (st : state)
| Done (count : nat) (st : state).

Section Collaborators.

(** The rewrite model: for the call made for the article at position [i]
    of the queue, with the given title, content and date, the [title] and
    [body] of its decoded answer; [None] when the API key is missing, the
    call raises or the answer does not decode. *)
Variable gemini_reply : nat -> pyval -> pyval -> pyval -> option (string * string).

(** The platform: whether [posts().insert(...).execute()] for the article
    at position [i] goes through and yields a [url]. *)
Variable posts_insert : nat -> Post -> bool.

Definition rewrite_with_gemini (i : nat)
    (original_title original_content original_link : pyval)
    (source_name : string) (date : pyval) : option Post :=
  match gemini_reply i original_title original_content date with
  | None => None
  | Some (ai_title, ai_body) =>
      let final_source_citation :=
        "<br/><br/>Read full news at: <a href='" +:+ py_str original_link
          +:+ "'>" +:+ source_name +:+ "</a>" in
      let final_date_tag :=
        if truthy date then "*Nepali Date: " +:+ py_str date +:+ "*<br/>"
        else "" in
      let final_body :=
        ai_body +:+ "<br/><br/>" +:+ final_date_tag +:+ final_source_citation in
      Some (mkPost ai_title final_body)
  end.

Definition create_post (i : nat) (service : Service) (title content : string)
    (st : state) : bool * state :=
  let body := mkPost title content in
  let st1 := log EUsersGet st in
  let st2 := log (EPostsInsert body) st1 in
  (posts_insert i body, st2).

(** The body of the [for article in all_articles] loop, after the cap
    test: the article at position [i] of the queue. *)
Definition iteration (service : Service) (i : nat) (article : Article)
    (count : nat) (st : state) : nat * state :=
  let st1 := log (ERewrite article) st in
  match rewrite_with_gemini i (title article) (content article)
          (link article) (source article) (date article) with
  | Some ai_result =>
      let '(success, st2) :=
        create_post i service (post_title ai_result) (post_content ai_result) st1 in
      if success then
        let '(_, st3) := save_posted_id (unique_id article) st2 in
        (S count, log (ESleep 10) st3)
      else (count, st2)
  | None => (count, st1)
  end.

(** The loop itself; [cap] is [MAX_POSTS_PER_RUN]. *)
Fixpoint process (cap : nat) (service : Service) (i : nat)
    (all_articles : list Article) (count : nat) (st : state) : nat * state :=
  match all_articles with
  | [] => (count, st)
  | article :: rest =>
      if bool_decide (cap ≤ count) then (count, st)
      else
        let '(count', st') := iteration service i article count st in
        process cap service (S i) rest count' st'
  end.

(** [run()], on the credentials, the two replies of the network and the
    file it finds.  Before [get_posted_ids] there is no list object; the
    state of an aborted run shows an empty one. *)
Definition run_with (cap : nat) (auth : auth_env) (http : http_reply)
    (feed : parse_reply) (db : option (list string)) : run_outcome :=
  match get_service auth with
  | None => Aborted (mkState [] db [])
  | Some service =>
      let posted_ids := get_posted_ids db in
      let st0 := mkState posted_ids db [] in
      let json_articles := fetch_json_news http posted_ids in
      let st1 := log (ERequestsGet JSON_URL) st0 in
      let st2 := log (EFeedParse RSS_URL) st1 in
      match fetch_rss_news feed posted_ids with
      | Raised => Crashed st2
      | Returned rss_articles =>
          let all_articles := json_articles ++ rss_articles in
          let '(count, st) := process cap service 0 all_articles 0 st2 in
          Done count st
      end
  end.

Definition run : auth_env -> http_reply -> parse_reply ->
                 option (list string) -> run_outcome :=
  run_with MAX_POSTS_PER_RUN.

(** Whether the pass for the article at position [i] ends in a publish:
    the rewrite hands back a post and the platform takes it. *)
Definition publishes (i : nat) (article : Article) : bool :=
  match rewrite_with_gemini i (title article) (content article)
          (link article) (source article) (date article) with
  | Some ai_result =>
      posts_insert i (mkPost (post_title ai_result) (post_content ai_result))
  | None => false
  end.

(** The ids of the articles of a queue, first at position [i], whose pass
    ends in a publish when no cap stops the loop. *)
Fixpoint published_ids (i : nat) (queue : list Article) : list string :=
  match queue with
  | [] => []
  | article :: rest =>
      (if publishes i article then [unique_id article] else [])
        ++ published_ids (S i) rest
  end.

End Collaborators.

(** The state a run ends in, however it ends. *)
Definition final_state (r : run_outcome) : state :=
  match r with
  | Aborted st | Crashed st | Done _ st => st
  end.

(** The API source failed as a whole: the [try] block raised, or the
    decoded body carries no true [success]. *)
Definition json_failed (reply : http_reply) : Prop :=
  match reply with
  | HttpFailed => True
  | HttpJson data => truthy (body_success data) = false
  end.

(** Seconds spent in [sleep] during a trace. *)
Fixpoint slept (tr : list event) : nat :=
  match tr with
  | [] => 0
  | ESleep seconds :: tr' => seconds + slept tr'
  | _ :: tr' => slept tr'
  end.

(** What one pass of the API adapter's loop appends for [item], if
    anything. *)
Definition kept_item (posted_ids : list string) (item : api_item)
    : option Article :=
  let uid := "json_" +:+ py_str (item_id item) in
  if py_in (item_category_name item) required_categories
     && bool_decide (uid ∉ posted_ids)
  then Some (mkArticle uid (item_title item) (item_content item)
               (item_original_news_link item) (item_date item)
               "bajarkochirfar.com")
  else None.

(** Whether the pass of the feed adapter's loop for [entry] raises: the
    link cannot be read, or the entry is new and its body or its title
    cannot be read. *)
Definition entry_raises (posted_ids : list string) (entry : feed_entry) : bool :=
  match entry_link entry with
  | None => true
  | Some lnk =>
      bool_decide ("rss_" +:+ lnk ∉ posted_ids)
      && match entry_body entry, entry_title entry with
         | Returned _, Some _ => false
         | _, _ => true
         end
  end.

(** What one pass of the feed adapter's loop appends for [entry], if
    anything. *)
Definition kept_entry (posted_ids : list string) (entry : feed_entry)
    : option Article :=
  match entry_link entry, entry_body entry, entry_title entry with
  | Some lnk, Returned body, Some t =>
      if bool_decide ("rss_" +:+ lnk ∉ posted_ids)
      then Some (mkArticle ("rss_" +:+ lnk) (PyStr t) (PyStr body) (PyStr lnk)
                   PyNone "nepsestock.com")
      else None
  | _, _, _ => None
  end.

(** ** The save operation as the design document words it *)

(** [save(id, current_set) -> current_set']: append, then keep the last 200
    entries.  The document has this one sequence both persisted and handed
    back to the caller. *)
Definition spec_save (id : string) (current_set : list string) : list string :=
  last_200 (current_set ++ [id]).

Definition save_as_documented (id : string) (st : state) : Prop :=
  let '(ret, st') := save_posted_id id st in
  db_file st' = Some (spec_save id (ids_obj st)) ∧
  ret = RetIds (spec_save id (ids_obj st)).

(** ** Sample inputs *)

Definition sample_item (n : Z) (category : string) : api_item :=
  mkItem (PyInt n) (PyStr category) (PyStr "शीर्षक") (PyStr "समाचार")
         (PyStr "https://bajarkochirfar.com/news") (PyStr "२०८२ मंसिर २ गते").

Definition sample_article (uid : string) : Article :=
  mkArticle uid (PyStr "शीर्षक") (PyStr "समाचार")
            (PyStr "https://bajarkochirfar.com/news") (PyStr "२०८२ मंसिर २ गते")
            "bajarkochirfar.com".

Definition sample_entry (lnk : string) : feed_entry :=
  mkEntry (Some lnk) (Some "Market update") (Some "NEPSE closes higher") [].

Definition sample_feed_article (lnk : string) : Article :=
  mkArticle ("rss_" +:+ lnk) (PyStr "Market update") (PyStr "NEPSE closes higher")
            (PyStr lnk) PyNone "nepsestock.com".

(** [n] items of the first allowed category, with ids 1 to [n]. *)
Definition sample_items (n : nat) : list api_item :=
  (λ k, sample_item (Z.of_nat k) "सेयर बजार") <$> seq 1 n.

Definition always_rewrites : nat → pyval → pyval → pyval → option (string * string) :=
  λ _ _ _ _, Some ("Title", "Body").

Definition never_rewrites : nat → pyval → pyval → pyval → option (string * string) :=
  λ _ _ _ _, None.

(** A rewrite model that fails on the first article of the queue only. *)
Definition rewrites_after_first
    : nat → pyval → pyval → pyval → option (string * string) :=
  λ i _ _ _, if bool_decide (i = 0) then None else Some ("Title", "Body").

Definition always_posts : nat → Post → bool := λ _ _, true.

Definition never_posts : nat → Post → bool := λ _ _, false.

Definition key_auth : auth_env :=
  mkAuth (Some "eyJ0eXBlIjoic2VydmljZV9hY2NvdW50In0=") (Some BloggerService)
         false None false None.

Definition no_auth : auth_env := mkAuth None None false None false None.

(** * Properties *)

(** ** Traces *)

Lemma writes_app tr1 tr2 : writes (tr1 ++ tr2) = writes tr1 ++ writes tr2.
Proof.
  induction tr1 as [|e tr1 IH]; [done|].
  destruct e; simpl; by rewrite ?IH.
Qed.

Lemma attempted_app tr1 tr2 :
  attempted (tr1 ++ tr2) = attempted tr1 ++ attempted tr2.
Proof.
  induction tr1 as [|e tr1 IH]; [done|].
  destruct e; simpl; by rewrite ?IH.
Qed.

Lemma submitted_app tr1 tr2 :
  submitted (tr1 ++ tr2) = submitted tr1 ++ submitted tr2.
Proof.
  induction tr1 as [|e tr1 IH]; [done|].
  destruct e; simpl; by rewrite ?IH.
Qed.

Ltac trace_simpl :=
  rewrite ?writes_app, ?attempted_app, ?submitted_app; simpl;
  rewrite ?app_nil_r.

(** ** Dedup store *)

Lemma last_200_short l : length l ≤ 200 → last_200 l = l.
Proof.
  intros Hl. unfold last_200.
  by replace (length l - 200) with 0 by lia.
Qed.

Lemma last_200_length l : length (last_200 l) ≤ 200.
Proof. unfold last_200. rewrite length_drop. lia. Qed.

Lemma last_200_app l app :
  200 ≤ length app → last_200 (l ++ app) = last_200 app.
Proof.
  intros Happ. unfold last_200.
  rewrite length_app, drop_app_ge by lia.
  f_equal. lia.
Qed.

(** Whatever the length, the file receives the last 200 entries of the
    caller's list after the append, and the caller's list keeps them all. *)
Lemma save_posted_id_eq post_id st :
  save_posted_id post_id st =
    (RetNone,
     mkState (ids_obj st ++ [post_id])
             (Some (last_200 (ids_obj st ++ [post_id])))
             (trace st ++ [EWriteDb (last_200 (ids_obj st ++ [post_id]))])).
Proof.
  unfold save_posted_id. cbv zeta.
  case_bool_decide as Hlen; [done|].
  rewrite last_200_short by lia. done.
Qed.

(** C5, as amended: for every id and every current dedup sequence,
    [save_posted_id] appends the id to the caller's list in place, writes to
    the file the last 200 entries of the appended list (all of it when it
    has at most 200), and returns nothing; the caller's list keeps every
    entry. *)
Theorem save_posted_id_appends_and_persists (post_id : string) (st : state) :
  fst (save_posted_id post_id st) = RetNone ∧
  ids_obj (snd (save_posted_id post_id st)) = ids_obj st ++ [post_id] ∧
  db_file (snd (save_posted_id post_id st))
    = Some (spec_save post_id (ids_obj st)) ∧
  writes (trace (snd (save_posted_id post_id st)))
    = writes (trace st) ++ [spec_save post_id (ids_obj st)].
Proof.
  rewrite save_posted_id_eq. simpl.
  rewrite writes_app. done.
Qed.

(** C5, as stated, fails: nothing is returned to the caller. *)
Lemma save_posted_id_returns_nothing :
  ¬ save_as_documented "json_7" (mkState [] None []).
Proof.
  unfold save_as_documented. rewrite save_posted_id_eq.
  intros [_ Hret]. discriminate Hret.
Qed.

(** C10: with 200 or more entries in the caller's list at the time of a
    save, the caller's list afterwards is the old list plus the id, longer
    than 200, while the file written holds the last 200 entries of it. *)
Theorem save_posted_id_truncates_file_only (post_id : string) (st : state) :
  200 ≤ length (ids_obj st) →
  ids_obj (snd (save_posted_id post_id st)) = ids_obj st ++ [post_id] ∧
  200 < length (ids_obj (snd (save_posted_id post_id st))) ∧
  db_file (snd (save_posted_id post_id st))
    = Some (drop (length (ids_obj st) + 1 - 200) (ids_obj st ++ [post_id])) ∧
  (∀ ids, db_file (snd (save_posted_id post_id st)) = Some ids →
          length ids = 200) ∧
  last (writes (trace (snd (save_posted_id post_id st))))
    = db_file (snd (save_posted_id post_id st)).
Proof.
  intros Hlen. rewrite save_posted_id_eq. simpl.
  unfold last_200. rewrite length_app. simpl.
  split; [done|]. split; [lia|]. split; [done|]. split.
  - intros ids [= <-]. rewrite length_drop, length_app. simpl. lia.
  - rewrite writes_app. simpl. by rewrite last_snoc.
Qed.

Lemma save_posted_id_truncates_file_only_witness :
  let st := mkState (replicate 200 "rss_http://a/1") None [] in
  ids_obj (snd (save_posted_id "json_7" st))
    = replicate 200 "rss_http://a/1" ++ ["json_7"] ∧
  db_file (snd (save_posted_id "json_7" st))
    = Some (replicate 199 "rss_http://a/1" ++ ["json_7"]).
Proof.
  intros st.
  destruct (save_posted_id_truncates_file_only "json_7" st) as (Hobj & _ & Hfile & _).
  - vm_compute. lia.
  - split; [exact Hobj|]. rewrite Hfile. vm_compute. reflexivity.
Defined.

(** ** Source adapters *)

Lemma json_loop_acc items posted_ids articles :
  json_loop items posted_ids articles
    = articles ++ json_loop items posted_ids [].
Proof.
  revert articles.
  induction items as [|item rest IH]; intros articles; simpl.
  - by rewrite app_nil_r.
  - destruct (py_in _ _ && _).
    + rewrite IH, (IH [_]). by rewrite <-app_assoc.
    + apply IH.
Qed.

Lemma json_loop_cons item rest posted_ids :
  json_loop (item :: rest) posted_ids [] =
    (if py_in (item_category_name item) required_categories
        && bool_decide ("json_" +:+ py_str (item_id item) ∉ posted_ids)
     then [mkArticle ("json_" +:+ py_str (item_id item)) (item_title item)
             (item_content item) (item_original_news_link item)
             (item_date item) "bajarkochirfar.com"]
     else [])
    ++ json_loop rest posted_ids [].
Proof.
  simpl. destruct (py_in _ _ && _); [|done].
  by rewrite json_loop_acc.
Qed.

Lemma json_loop_app items1 items2 posted_ids :
  json_loop (items1 ++ items2) posted_ids []
    = json_loop items1 posted_ids [] ++ json_loop items2 posted_ids [].
Proof.
  induction items1 as [|item rest IH]; [done|].
  rewrite <-app_comm_cons, !json_loop_cons, IH. by rewrite <-app_assoc.
Qed.

Lemma json_loop_filter items posted_ids :
  json_loop items posted_ids []
    = filter (λ a, unique_id a ∉ posted_ids) (json_loop items [] []).
Proof.
  induction items as [|item rest IH]; [done|].
  rewrite !json_loop_cons, filter_app, <-IH. f_equal.
  destruct (py_in _ _); cbn [andb]; [|done].
  rewrite (bool_decide_eq_true_2 (_ ∉ [])) by apply not_elem_of_nil.
  case_bool_decide as Hin.
  - rewrite filter_cons_True by done. reflexivity.
  - rewrite filter_cons_False; [reflexivity|]. intros Hfresh. by apply Hfresh.
Qed.

Lemma fetch_json_news_filter reply posted_ids :
  fetch_json_news reply posted_ids
    = filter (λ a, unique_id a ∉ posted_ids) (fetch_json_news reply []).
Proof.
  destruct reply as [|data]; simpl; [done|].
  destruct (negb _); [done|]. apply json_loop_filter.
Qed.

Lemma fetch_json_news_fresh reply posted_ids a :
  a ∈ fetch_json_news reply posted_ids → unique_id a ∉ posted_ids.
Proof.
  rewrite fetch_json_news_filter, list_elem_of_filter. by intros [? _].
Qed.

Lemma rss_loop_acc entries posted_ids articles :
  rss_loop entries posted_ids articles =
    match rss_loop entries posted_ids [] with
    | Returned arts => Returned (articles ++ arts)
    | Raised => Raised
    end.
Proof.
  revert articles.
  induction entries as [|entry rest IH]; intros articles; simpl.
  - by rewrite app_nil_r.
  - destruct (entry_link entry) as [lnk|]; [|done].
    case_bool_decide; [|by apply IH].
    destruct (entry_body entry) as [body|]; [|done].
    destruct (entry_title entry) as [t|]; [|done].
    rewrite IH, (IH [_]).
    destruct (rss_loop rest posted_ids []); [|done].
    by rewrite <-app_assoc.
Qed.

Lemma rss_loop_filter entries posted_ids arts :
  rss_loop entries [] [] = Returned arts →
  rss_loop entries posted_ids []
    = Returned (filter (λ a, unique_id a ∉ posted_ids) arts).
Proof.
  revert arts.
  induction entries as [|entry rest IH]; intros arts; simpl.
  - by intros [= <-].
  - destruct (entry_link entry) as [lnk|]; [|done].
    destruct (entry_body entry) as [body|]; [|done].
    destruct (entry_title entry) as [t|]; [|done].
    rewrite rss_loop_acc.
    destruct (rss_loop rest [] []) as [arts'|]; [|done].
    intros [= <-]. specialize (IH arts' eq_refl).
    case_bool_decide as Hin.
    + rewrite rss_loop_acc, IH. by rewrite filter_cons_True.
    + rewrite IH. rewrite (filter_cons_False _ _ arts'); [done|].
      intros Hfresh. by apply Hfresh.
Qed.

Lemma rss_loop_fresh entries posted_ids arts a :
  rss_loop entries posted_ids [] = Returned arts →
  a ∈ arts → unique_id a ∉ posted_ids.
Proof.
  revert arts.
  induction entries as [|entry rest IH]; intros arts; simpl.
  - intros [= <-]. by intros ?%not_elem_of_nil.
  - destruct (entry_link entry) as [lnk|]; [|done].
    case_bool_decide as Hin; [|by apply IH].
    destruct (entry_body entry) as [body|]; [|done].
    destruct (entry_title entry) as [t|]; [|done].
    rewrite rss_loop_acc.
    destruct (rss_loop rest posted_ids []) as [arts'|]; [|done].
    intros [= <-]. rewrite elem_of_cons. intros [->|Hin'].
    + exact Hin.
    + by apply (IH arts').
Qed.

(** C1: with a dedup set [posted_ids], each adapter returns what it would
    return with an empty dedup set, less the articles whose [unique_id] is in
    [posted_ids]; no returned article has an id of the dedup set.  With
    dedup set ["rss_http://a/1"] and feed entries linking to http://a/1 and
    http://a/2, the feed adapter returns exactly the article with id
    "rss_http://a/2". *)
Theorem fetch_excludes_posted_ids :
  (∀ reply posted_ids,
     fetch_json_news reply posted_ids
       = filter (λ a, unique_id a ∉ posted_ids) (fetch_json_news reply [])) ∧
  (∀ feed posted_ids arts,
     fetch_rss_news feed [] = Returned arts →
     fetch_rss_news feed posted_ids
       = Returned (filter (λ a, unique_id a ∉ posted_ids) arts)) ∧
  (∀ reply posted_ids a,
     a ∈ fetch_json_news reply posted_ids → unique_id a ∉ posted_ids) ∧
  (∀ feed posted_ids arts a,
     fetch_rss_news feed posted_ids = Returned arts →
     a ∈ arts → unique_id a ∉ posted_ids) ∧
  fetch_rss_news
    (ParseFeed [sample_entry "http://a/1"; sample_entry "http://a/2"])
    ["rss_http://a/1"]
    = Returned [sample_feed_article "http://a/2"] ∧
  unique_id (sample_feed_article "http://a/2") = "rss_http://a/2".
Proof.
  split; [exact fetch_json_news_filter|].
  split.
  { intros [|entries] posted_ids arts; simpl.
    - by intros [= <-].
    - apply rss_loop_filter. }
  split; [exact fetch_json_news_fresh|].
  split.
  { intros [|entries] posted_ids arts a; simpl.
    - intros [= <-]. by intros ?%not_elem_of_nil.
    - apply rss_loop_fresh. }
  split; reflexivity.
Qed.

Lemma fetch_excludes_posted_ids_witness :
  fetch_rss_news
    (ParseFeed [sample_entry "http://a/2"; sample_entry "http://a/1";
                sample_entry "http://a/3"])
    ["rss_http://a/1"; "json_7"]
  = Returned [sample_feed_article "http://a/2"; sample_feed_article "http://a/3"].
Proof.
  destruct fetch_excludes_posted_ids as (_ & Hrss & _).
  rewrite (Hrss _ _ [sample_feed_article "http://a/2";
                     sample_feed_article "http://a/1";
                     sample_feed_article "http://a/3"]).
  - vm_compute. reflexivity.
  - vm_compute. reflexivity.
Defined.

Lemma json_loop_skips_category before item after posted_ids :
  py_in (item_category_name item) required_categories = false →
  json_loop (before ++ item :: after) posted_ids []
    = json_loop (before ++ after) posted_ids [].
Proof.
  intros Hcat.
  rewrite !json_loop_app, json_loop_cons, Hcat. done.
Qed.

Lemma json_loop_origin items posted_ids a :
  a ∈ json_loop items posted_ids [] →
  ∃ item, item ∈ items ∧
    py_in (item_category_name item) required_categories = true ∧
    a = mkArticle ("json_" +:+ py_str (item_id item)) (item_title item)
          (item_content item) (item_original_news_link item) (item_date item)
          "bajarkochirfar.com".
Proof.
  induction items as [|item rest IH].
  - by intros ?%not_elem_of_nil.
  - rewrite json_loop_cons, elem_of_app. intros [Hhere|Hrest].
    + destruct (py_in _ _) eqn:Hcat; [|by apply not_elem_of_nil in Hhere].
      destruct (bool_decide _); cbn [andb] in Hhere;
        [|by apply not_elem_of_nil in Hhere].
      apply list_elem_of_singleton in Hhere as ->.
      exists item. split; [apply elem_of_cons; by left|done].
    + destruct (IH Hrest) as (item' & Hin & Hok).
      exists item'. split; [apply elem_of_cons; by right|done].
Qed.

(** C7: an item of the API response whose [category_name] is not one of the
    two required categories contributes nothing to the adapter's output,
    whatever the dedup set holds, and every returned article stems from an
    item of a required category.  For the response with item 7 in
    "सेयर बजार" and item 8 in "खेलकुद", the output is the article "json_7"
    alone (and empty when "json_7" was already posted). *)
Theorem fetch_json_news_category_filter :
  (∀ success before item after posted_ids,
     py_in (item_category_name item) required_categories = false →
     fetch_json_news (HttpJson (mkBody success (before ++ item :: after))) posted_ids
       = fetch_json_news (HttpJson (mkBody success (before ++ after))) posted_ids) ∧
  (∀ data posted_ids a,
     a ∈ fetch_json_news (HttpJson data) posted_ids →
     ∃ item, item ∈ body_data data ∧
       py_in (item_category_name item) required_categories = true ∧
       unique_id a = "json_" +:+ py_str (item_id item)) ∧
  (∀ t7 c7 l7 d7 t8 c8 l8 d8 posted_ids,
     fetch_json_news
       (HttpJson (mkBody (PyBool true)
          [mkItem (PyInt 7) (PyStr "सेयर बजार") t7 c7 l7 d7;
           mkItem (PyInt 8) (PyStr "खेलकुद") t8 c8 l8 d8]))
       posted_ids
     = if bool_decide ("json_7" ∈ posted_ids) then []
       else [mkArticle "json_7" t7 c7 l7 d7 "bajarkochirfar.com"]).
Proof.
  split; [|split].
  - intros success before item after posted_ids Hcat. simpl.
    destruct (negb _); [done|]. by apply json_loop_skips_category.
  - intros data posted_ids a. simpl.
    destruct (negb _); [by intros ?%not_elem_of_nil|].
    intros (item & Hin & Hcat & ->)%json_loop_origin. by exists item.
  - intros t7 c7 l7 d7 t8 c8 l8 d8 posted_ids.
    cbn [fetch_json_news body_success body_data truthy negb].
    rewrite !json_loop_cons.
    cbn [item_category_name item_id py_in py_str].
    change (pretty 7%Z) with "7".
    replace (bool_decide ("सेयर बजार" ∈ required_categories)) with true
      by (by vm_compute).
    replace (bool_decide ("खेलकुद" ∈ required_categories)) with false
      by (by vm_compute).
    cbn [andb app json_loop].
    change ("json_" +:+ "7") with "json_7".
    repeat case_bool_decide; done.
Qed.

Lemma fetch_json_news_category_filter_witness :
  fetch_json_news
    (HttpJson (mkBody (PyBool true)
       [sample_item 7 "सेयर बजार"; sample_item 8 "खेलकुद"; sample_item 9 "अर्थतन्त्र"]))
    ["json_8"]
  = [sample_article "json_7"; sample_article "json_9"].
Proof.
  destruct fetch_json_news_category_filter as (Hskip & _).
  etrans.
  - apply (Hskip (PyBool true) [sample_item 7 "सेयर बजार"]
             (sample_item 8 "खेलकुद") [sample_item 9 "अर्थतन्त्र"] ["json_8"]).
    vm_compute. reflexivity.
  - vm_compute. reflexivity.
Defined.

(** ** The run loop *)

Section RunLoop.

Variable gemini_reply : nat → pyval → pyval → pyval → option (string * string).
Variable posts_insert : nat → Post → bool.

Local Abbreviation rewrite_of i a :=
  (rewrite_with_gemini gemini_reply i (title a) (content a) (link a)
     (source a) (date a)).
Local Abbreviation iteration' := (iteration gemini_reply posts_insert).
Local Abbreviation process' := (process gemini_reply posts_insert).
Local Abbreviation run_with' := (run_with gemini_reply posts_insert).
Local Abbreviation publishes' := (publishes gemini_reply posts_insert).
Local Abbreviation published_ids' := (published_ids gemini_reply posts_insert).

(** One pass through the loop body: what it leaves behind when the
    article is not published, and when it is. *)
Lemma iteration_skipped service i a count st :
  match rewrite_of i a with
  | Some p => posts_insert i p = false
  | None => True
  end →
  ∃ st', iteration' service i a count st = (count, st') ∧
    ids_obj st' = ids_obj st ∧ db_file st' = db_file st ∧
    writes (trace st') = writes (trace st) ∧
    attempted (trace st') = attempted (trace st) ++ [a] ∧
    submitted (trace st') =
      submitted (trace st) ++ from_option (λ p, [p]) [] (rewrite_of i a).
Proof.
  intros Hfail. unfold iteration.
  destruct (rewrite_of i a) as [[t c]|]; simpl in *.
  - rewrite Hfail. eexists; split; [done|]. simpl. by trace_simpl.
  - eexists; split; [done|]. simpl. by trace_simpl.
Qed.

Lemma iteration_published service i a count st p :
  rewrite_of i a = Some p → posts_insert i p = true →
  ∃ st', iteration' service i a count st = (S count, st') ∧
    ids_obj st' = ids_obj st ++ [unique_id a] ∧
    db_file st' = Some (last_200 (ids_obj st')) ∧
    writes (trace st') = writes (trace st) ++ [last_200 (ids_obj st')] ∧
    attempted (trace st') = attempted (trace st) ++ [a] ∧
    submitted (trace st') = submitted (trace st) ++ [p].
Proof.
  intros Hrw Hpost. unfold iteration, create_post. rewrite Hrw.
  destruct p as [t c]; cbn [post_title post_content]. rewrite Hpost.
  rewrite save_posted_id_eq.
  eexists; split; [done|]. simpl. by trace_simpl.
Qed.

(** Whether the pass for the article at position [i] publishes it. *)
Lemma iteration_cases service i a count st :
  ∃ app st',
    iteration' service i a count st = (count + length app, st') ∧
    (app = [] ∨ app = [unique_id a]) ∧
    ids_obj st' = ids_obj st ++ app ∧
    (app = [] → db_file st' = db_file st) ∧
    (app ≠ [] → db_file st' = Some (last_200 (ids_obj st'))) ∧
    writes (trace st')
      = writes (trace st) ++ ((λ _, last_200 (ids_obj st')) <$> app) ∧
    attempted (trace st') = attempted (trace st) ++ [a].
Proof.
  destruct (rewrite_of i a) as [p|] eqn:Hrw;
    [destruct (posts_insert i p) eqn:Hpost|].
  - destruct (iteration_published service i a count st p Hrw Hpost)
      as (st' & Hit & Hobj & Hfile & Hw & Hatt & _).
    exists [unique_id a], st'. simpl.
    replace (count + 1) with (S count) by lia.
    repeat split; auto. done.
  - destruct (iteration_skipped service i a count st) as
      (st' & Hit & Hobj & Hfile & Hw & Hatt & _); [by rewrite Hrw|].
    exists [], st'. simpl. rewrite Nat.add_0_r, !app_nil_r.
    repeat split; auto. done.
  - destruct (iteration_skipped service i a count st) as
      (st' & Hit & Hobj & Hfile & Hw & Hatt & _); [by rewrite Hrw|].
    exists [], st'. simpl. rewrite Nat.add_0_r, !app_nil_r.
    repeat split; auto. done.
Qed.

(** The loop as a whole, from any position, count and state: [n] articles
    are attempted, the ids in [app] are appended, in this order. *)
Lemma process_spec cap service queue : ∀ i count st,
  ∃ n app st',
    process' cap service i queue count st = (count + length app, st') ∧
    n ≤ length queue ∧
    attempted (trace st') = attempted (trace st) ++ take n queue ∧
    ids_obj st' = ids_obj st ++ app ∧
    app `sublist_of` unique_id <$> take n queue ∧
    (app = [] → db_file st' = db_file st) ∧
    (app ≠ [] → db_file st' = Some (last_200 (ids_obj st'))) ∧
    (∃ ws, writes (trace st') = writes (trace st) ++ ws ∧
           length ws = length app ∧
           Forall (λ ids, length ids ≤ 200) ws) ∧
    (n < length queue → cap ≤ count + length app) ∧
    (count ≤ cap → count + length app ≤ cap).
Proof.
  induction queue as [|a rest IH]; intros i count st.
  - exists 0, [], st. simpl. rewrite Nat.add_0_r, !app_nil_r.
    repeat split; try done; try lia.
    exists []. by rewrite app_nil_r.
  - simpl. case_bool_decide as Hcap.
    + exists 0, [], st. simpl. rewrite Nat.add_0_r, !app_nil_r.
      repeat split; try done; try lia.
      exists []. by rewrite app_nil_r.
    + destruct (iteration_cases service i a count st)
        as (app1 & st1 & Hit & Happ1 & Hobj1 & Hsame1 & Hfile1 & Hw1 & Hatt1).
      rewrite Hit.
      destruct (IH (S i) (count + length app1) st1)
        as (n & app2 & st2 & Hp & Hn & Hatt2 & Hobj2 & Hsub & Hsame2 & Hfile2
            & (ws & Hw2 & Hwlen & Hwall) & Hstop & Hle).
      rewrite Hp.
      assert (length app1 ≤ 1) as Hlen1
        by (destruct Happ1 as [-> | ->]; simpl; lia).
      exists (S n), (app1 ++ app2), st2.
      split; [f_equal; rewrite length_app; lia|].
      split; [simpl; lia|].
      split; [by rewrite Hatt2, Hatt1, <-app_assoc|].
      split; [by rewrite Hobj2, Hobj1, <-app_assoc|].
      split.
      { simpl. destruct Happ1 as [-> | ->]; simpl.
        - by apply sublist_cons.
        - by apply sublist_skip. }
      split.
      { intros [-> ->]%app_eq_nil. rewrite Hsame2, Hsame1; done. }
      split.
      { intros Hne. destruct app2 as [|x app2].
        - rewrite app_nil_r in Hne, Hobj2.
          rewrite Hsame2, Hfile1, Hobj2; done.
        - by apply Hfile2. }
      split.
      { exists (((λ _, last_200 (ids_obj st1)) <$> app1) ++ ws).
        split; [by rewrite Hw2, Hw1, <-app_assoc|].
        split; [by rewrite !length_app, length_fmap, Hwlen|].
        apply Forall_app; split; [|done].
        apply Forall_forall. intros ids (_ & -> & _)%list_elem_of_fmap.
        apply last_200_length. }
      split.
      { simpl. rewrite length_app. intros Hlt.
        assert (n < length rest) as Hlt' by lia.
        specialize (Hstop Hlt'). lia. }
      rewrite length_app. intros _. lia.
Qed.

(** When the rewrite and the publish call never fail, the loop attempts
    the articles one by one until the count reaches the cap. *)
Lemma process_all_published cap service queue :
  (∀ i t c d, is_Some (gemini_reply i t c d)) →
  (∀ i p, posts_insert i p = true) →
  ∀ i count st, count ≤ cap →
  ∃ st',
    process' cap service i queue count st
      = (count + (cap - count) `min` length queue, st') ∧
    attempted (trace st') = attempted (trace st) ++ take (cap - count) queue.
Proof.
  intros Hrw Hpost.
  induction queue as [|a rest IH]; intros i count st Hle; simpl.
  - exists st. rewrite Nat.min_0_r, Nat.add_0_r, take_nil, app_nil_r. done.
  - case_bool_decide as Hcap.
    + exists st. replace (cap - count) with 0 by lia.
      simpl. by rewrite Nat.add_0_r, app_nil_r.
    + assert (∃ p, rewrite_of i a = Some p) as [p Hp].
      { unfold rewrite_with_gemini.
        destruct (Hrw i (title a) (content a) (date a)) as [[t b] ->].
        by eexists. }
      destruct (iteration_published service i a count st p Hp (Hpost i p))
        as (st1 & Hit & _ & _ & _ & Hatt1 & _).
      rewrite Hit.
      destruct (IH (S i) (S count) st1) as (st2 & Hp2 & Hatt2); [lia|].
      exists st2. rewrite Hp2, Hatt2, Hatt1, <-app_assoc.
      replace (cap - count) with (S (cap - S count)) by lia.
      split; [f_equal; lia|done].
Qed.

(** C3: when the rewrite of article X succeeds and the publish call fails,
    the pass for X appends nothing to the dedup list, writes nothing to the
    file, leaves the count as it was, and the loop goes on with the next
    article. *)
Theorem publish_failure_keeps_store (cap : nat) (service : Service) (i : nat)
    (X : Article) (rest : list Article) (count : nat) (st : state) (p : Post) :
  count < cap →
  rewrite_of i X = Some p →
  posts_insert i p = false →
  (iteration' service i X count st).1 = count ∧
  ids_obj (iteration' service i X count st).2 = ids_obj st ∧
  db_file (iteration' service i X count st).2 = db_file st ∧
  writes (trace (iteration' service i X count st).2) = writes (trace st) ∧
  submitted (trace (iteration' service i X count st).2)
    = submitted (trace st) ++ [p] ∧
  process' cap service i (X :: rest) count st
    = process' cap service (S i) rest count (iteration' service i X count st).2.
Proof.
  intros Hcap Hrw Hpost.
  destruct (iteration_skipped service i X count st)
    as (st' & Hit & Hobj & Hfile & Hw & _ & Hsub); [by rewrite Hrw|].
  rewrite Hrw in Hsub. simpl process.
  rewrite bool_decide_eq_false_2 by lia.
  rewrite Hit. done.
Qed.

Lemma published_ids_length i queue :
  length (published_ids' i queue) ≤ length queue.
Proof.
  revert i. induction queue as [|a rest IH]; intros i; simpl; [done|].
  rewrite length_app. specialize (IH (S i)).
  destruct (publishes' i a); simpl; lia.
Qed.

(** Where the loop stops: after [n] attempts, [n] being the first prefix of
    the queue that holds enough publishes to bring the count to the cap, or
    the whole queue when there is none. *)
Lemma process_stops_at_cap cap service queue : ∀ i count st,
  count ≤ cap →
  ∃ n,
    n ≤ length queue ∧
    attempted (trace (process' cap service i queue count st).2)
      = attempted (trace st) ++ take n queue ∧
    (process' cap service i queue count st).1
      = count + length (published_ids' i (take n queue)) ∧
    (process' cap service i queue count st).1 ≤ cap ∧
    (n < length queue → (process' cap service i queue count st).1 = cap) ∧
    (∀ m, m < n → count + length (published_ids' i (take m queue)) < cap).
Proof.
  induction queue as [|a rest IH]; intros i count st Hle.
  - exists 0. simpl. rewrite app_nil_r, Nat.add_0_r.
    repeat split; try done; lia.
  - simpl process. case_bool_decide as Hcap.
    + exists 0. simpl. rewrite app_nil_r, Nat.add_0_r.
      repeat split; try done; lia.
    + destruct (publishes' i a) eqn:Hpub.
      * pose proof Hpub as Hpub'. unfold publishes in Hpub'.
        destruct (rewrite_of i a) as [[t c]|] eqn:Hrw; [|done].
        simpl in Hpub'.
        destruct (iteration_published service i a count st (mkPost t c) Hrw Hpub')
          as (st1 & Hit & _ & _ & _ & Hatt1 & _).
        rewrite Hit.
        destruct (IH (S i) (S count) st1)
          as (n & Hn & Hatt & Hc & Hcle & Hstop & Hmin); [lia|].
        exists (S n). rewrite Hatt, Hatt1, Hc, <-app_assoc. simpl.
        rewrite Hpub. simpl.
        split; [lia|]. split; [done|]. split; [lia|]. split; [lia|].
        split; [intros Hlt; rewrite <-Hstop; lia|].
        intros [|m] Hm; simpl; [lia|].
        rewrite Hpub. simpl. specialize (Hmin m). lia.
      * assert (match rewrite_of i a with
                | Some p => posts_insert i p = false
                | None => True
                end) as Hfail.
        { unfold publishes in Hpub.
          by destruct (rewrite_of i a) as [[t c]|]. }
        destruct (iteration_skipped service i a count st Hfail)
          as (st1 & Hit & _ & _ & _ & Hatt1 & _).
        rewrite Hit.
        destruct (IH (S i) count st1)
          as (n & Hn & Hatt & Hc & Hcle & Hstop & Hmin); [lia|].
        exists (S n). rewrite Hatt, Hatt1, Hc, <-app_assoc. simpl.
        rewrite Hpub. simpl.
        split; [lia|]. split; [done|]. split; [lia|]. split; [lia|].
        split; [intros Hlt; rewrite <-Hstop; lia|].
        intros [|m] Hm; simpl; [lia|].
        rewrite Hpub. simpl. specialize (Hmin m). lia.
Qed.

(** C4, as amended: with run cap K and a queue of length M > K, the loop
    publishes at most K articles and attempts the articles in queue order
    until K publishes have succeeded or the queue is exhausted: the
    attempted articles are the shortest prefix of the queue that holds K
    articles whose rewrite and publish succeed, or the whole queue when
    there are fewer.  An attempt that fails at the rewrite or the publish
    step does not count toward the cap: between K and M articles are
    attempted, all M when fewer than K publishes succeed, and exactly K when
    no attempt fails. *)
Theorem cap_limits_publishes (cap : nat) (service : Service)
    (queue : list Article) (st : state) :
  cap < length queue →
  ∃ n,
    attempted (trace (process' cap service 0 queue 0 st).2)
      = attempted (trace st) ++ take n queue ∧
    cap ≤ n ≤ length queue ∧
    (process' cap service 0 queue 0 st).1 ≤ cap ∧
    (n < length queue → (process' cap service 0 queue 0 st).1 = cap) ∧
    (process' cap service 0 queue 0 st).1
      = length (published_ids' 0 (take n queue)) ∧
    (∀ m, m < n → length (published_ids' 0 (take m queue)) < cap) ∧
    ((∀ i t c d, is_Some (gemini_reply i t c d)) →
     (∀ i p, posts_insert i p = true) →
     n = cap).
Proof.
  intros HM.
  destruct (process_stops_at_cap cap service queue 0 0 st)
    as (n & Hn & Hatt & Hc & Hcle & Hstop & Hmin); [lia|].
  simpl in Hc, Hmin.
  pose proof (published_ids_length 0 (take n queue)) as Hlen.
  rewrite length_take in Hlen.
  exists n. split; [done|].
  split; [split; [|done]|].
  { destruct (decide (n < length queue)) as [Hlt|Hge]; [|lia].
    specialize (Hstop Hlt). lia. }
  split; [done|]. split; [done|]. split; [done|]. split; [done|].
  intros Hrw Hpost.
  destruct (process_all_published cap service queue Hrw Hpost 0 0 st)
    as (st2 & Hp2 & Hatt2); [lia|].
  destruct (process' cap service 0 queue 0 st) as [c' st'] eqn:Hp.
  injection Hp2 as _ <-. simpl in Hatt.
  rewrite Hatt in Hatt2. apply app_inv_head in Hatt2.
  apply (f_equal length) in Hatt2. rewrite !length_take in Hatt2. lia.
Qed.

(** ** Whole runs *)

(** A run that reaches its end had a service, fetched from both sources
    and looped over the concatenated queue. *)
Lemma run_with_Done cap auth http feed db N st :
  run_with' cap auth http feed db = Done N st →
  ∃ service rss,
    get_service auth = Some service ∧
    fetch_rss_news feed (get_posted_ids db) = Returned rss ∧
    process' cap service 0 (fetch_json_news http (get_posted_ids db) ++ rss) 0
      (mkState (get_posted_ids db) db [ERequestsGet JSON_URL; EFeedParse RSS_URL])
      = (N, st).
Proof.
  unfold run_with.
  destruct (get_service auth) as [service|]; [|done].
  destruct (fetch_rss_news feed (get_posted_ids db)) as [rss|]; [|done].
  destruct (process' _ _ _ _ _ _) as [count st'] eqn:Hp.
  intros [= <- <-]. by exists service, rss.
Qed.

(** C2: after a run with N > 200 successful publishes, the file holds the
    last 200 of the N ids appended during the run, in the order they were
    appended; the file was written N times, each time with at most 200
    entries. *)
Theorem persisted_ids_are_last_200 (cap : nat) (auth : auth_env)
    (http : http_reply) (feed : parse_reply) (db : option (list string))
    (N : nat) (st : state) :
  run_with' cap auth http feed db = Done N st →
  200 < N →
  ∃ app,
    ids_obj st = get_posted_ids db ++ app ∧
    length app = N ∧
    db_file st = Some (drop (N - 200) app) ∧
    length (writes (trace st)) = N ∧
    Forall (λ ids, length ids ≤ 200) (writes (trace st)).
Proof.
  intros (service & rss & _ & _ & Hp)%run_with_Done HN.
  destruct (process_spec cap service
              (fetch_json_news http (get_posted_ids db) ++ rss) 0 0
              (mkState (get_posted_ids db) db
                 [ERequestsGet JSON_URL; EFeedParse RSS_URL]))
    as (n & app & st' & Hp' & _ & _ & Hobj & _ & _ & Hfile
        & (ws & Hw & Hwlen & Hwall) & _).
  rewrite Hp in Hp'. injection Hp' as -> ->.
  simpl in *. exists app.
  split; [done|]. split; [done|].
  split.
  { rewrite Hfile by (intros ->; simpl in HN; lia).
    rewrite Hobj, last_200_app by lia. done. }
  by rewrite Hw, Hwlen.
Qed.

(** C6, as amended: the ids appended during a run are, in order, ids of
    queued articles; each of them was absent from the dedup set loaded at
    the start, and when the queued articles carry pairwise distinct ids no
    id is appended more than once.  (The adapters do not compare the items
    of one response with each other.) *)
Theorem appended_ids_come_from_queue (cap : nat) (auth : auth_env)
    (http : http_reply) (feed : parse_reply) (db : option (list string))
    (N : nat) (st : state) :
  run_with' cap auth http feed db = Done N st →
  ∃ rss app,
    fetch_rss_news feed (get_posted_ids db) = Returned rss ∧
    ids_obj st = get_posted_ids db ++ app ∧
    app `sublist_of`
      (unique_id <$> (fetch_json_news http (get_posted_ids db) ++ rss)) ∧
    (∀ x, x ∈ app → x ∉ get_posted_ids db) ∧
    (NoDup (unique_id <$> (fetch_json_news http (get_posted_ids db) ++ rss)) →
     NoDup app).
Proof.
  intros (service & rss & _ & Hrss & Hp)%run_with_Done.
  destruct (process_spec cap service
              (fetch_json_news http (get_posted_ids db) ++ rss) 0 0
              (mkState (get_posted_ids db) db
                 [ERequestsGet JSON_URL; EFeedParse RSS_URL]))
    as (n & app & st' & Hp' & _ & _ & Hobj & Hsub & _).
  rewrite Hp in Hp'. injection Hp' as -> ->.
  simpl in *. exists rss, app.
  assert (app `sublist_of`
            (unique_id <$> (fetch_json_news http (get_posted_ids db) ++ rss)))
    as Hsub'.
  { etrans; [exact Hsub|]. apply fmap_sublist, sublist_take. }
  split; [done|]. split; [done|]. split; [done|]. split.
  - intros x Hx.
    apply (elem_of_sublist _ _ _ Hx) in Hsub'.
    apply list_elem_of_fmap in Hsub' as (a & -> & [Ha|Ha]%elem_of_app).
    + by eapply fetch_json_news_fresh.
    + destruct feed as [|entries]; simpl in Hrss.
      * injection Hrss as <-. by apply not_elem_of_nil in Ha.
      * by eapply rss_loop_fresh.
  - intros Hnd. by eapply sublist_NoDup.
Qed.

(** C9: when authentication yields no service the run stops at once: no
    fetch, no rewrite, no post, no write, and the file is as it was.  That
    is the case in particular when no authentication method is available. *)
Theorem missing_service_aborts (cap : nat) (auth : auth_env)
    (http : http_reply) (feed : parse_reply) (db : option (list string)) :
  get_service auth = None →
  run_with' cap auth http feed db = Aborted (mkState [] db []) ∧
  trace (final_state (run_with' cap auth http feed db)) = [] ∧
  db_file (final_state (run_with' cap auth http feed db)) = db.
Proof.
  intros Hauth. unfold run_with. by rewrite Hauth.
Qed.

End RunLoop.

(** ** Sample runs *)

Lemma publish_failure_keeps_store_witness :
  let st := mkState ["json_1"] (Some ["json_1"]) [] in
  let r := iteration always_rewrites never_posts BloggerService 0
             (sample_article "json_7") 0 st in
  ids_obj r.2 = ["json_1"] ∧ db_file r.2 = Some ["json_1"] ∧
  process always_rewrites never_posts 999 BloggerService 0
    [sample_article "json_7"; sample_article "json_9"] 0 st
  = process always_rewrites never_posts 999 BloggerService 1
      [sample_article "json_9"] 0 r.2.
Proof.
  intros st r.
  edestruct (publish_failure_keeps_store always_rewrites never_posts 999
               BloggerService 0 (sample_article "json_7")
               [sample_article "json_9"] 0 st)
    as (_ & Hobj & Hfile & _ & _ & Hnext).
  - lia.
  - vm_compute. reflexivity.
  - reflexivity.
  - split; [exact Hobj|]. split; [exact Hfile|exact Hnext].
Defined.

(** C4, as stated, fails: with cap 1 and a queue of two articles whose
    rewrite fails, both are attempted. *)
Lemma cap_counts_publishes_not_attempts :
  length (attempted (trace
    (process never_rewrites always_posts 1 BloggerService 0
       [sample_article "json_7"; sample_article "json_9"] 0
       (mkState [] None [])).2)) ≠ 1.
Proof. vm_compute. lia. Qed.

Lemma cap_limits_publishes_witness :
  attempted (trace
    (process rewrites_after_first always_posts 1 BloggerService 0
       [sample_article "json_7"; sample_article "json_9";
        sample_article "json_11"] 0
       (mkState [] None [])).2)
  = [sample_article "json_7"; sample_article "json_9"].
Proof.
  destruct (cap_limits_publishes rewrites_after_first always_posts 1
              BloggerService
              [sample_article "json_7"; sample_article "json_9";
               sample_article "json_11"]
              (mkState [] None []))
    as (n & Hatt & [Hlo Hhi] & _ & Hstop & Hcount & Hmin & _).
  - simpl. lia.
  - rewrite Hatt. destruct n as [|[|[|[|n]]]].
    + lia.
    + rewrite Hcount in Hstop. vm_compute in Hstop.
      assert (0 = 1) as Habs by (apply Hstop; lia). discriminate Habs.
    + reflexivity.
    + specialize (Hmin 2). vm_compute in Hmin.
      assert (2 ≤ 1) as Habs by (apply Hmin; lia). lia.
    + simpl in Hhi. lia.
Defined.

Lemma persisted_ids_are_last_200_witness :
  let r := run always_rewrites always_posts key_auth
             (HttpJson (mkBody (PyBool true) (sample_items 201)))
             (ParseFeed []) None in
  length (ids_obj (final_state r)) = 201 ∧
  db_file (final_state r) = Some (drop 1 (ids_obj (final_state r))) ∧
  head (drop 1 (ids_obj (final_state r))) = Some "json_2" ∧
  Forall (λ ids, length ids ≤ 200) (writes (trace (final_state r))).
Proof.
  intros r.
  destruct (persisted_ids_are_last_200 always_rewrites always_posts
              MAX_POSTS_PER_RUN key_auth
              (HttpJson (mkBody (PyBool true) (sample_items 201)))
              (ParseFeed []) None 201 (final_state r))
    as (app & Hobj & Hlen & Hfile & _ & Hall).
  - vm_compute. reflexivity.
  - lia.
  - change (get_posted_ids None ++ app) with app in Hobj.
    rewrite Hobj, Hfile.
    split; [exact Hlen|]. split; [reflexivity|]. split; [|exact Hall].
    rewrite <-Hobj. vm_compute. reflexivity.
Defined.

(** C6, as stated, fails: a response with two items of id 7 has
    "json_7" appended twice in one run. *)
Lemma repeated_item_is_appended_twice :
  ¬ NoDup (ids_obj (final_state
      (run always_rewrites always_posts key_auth
         (HttpJson (mkBody (PyBool true)
            [sample_item 7 "सेयर बजार"; sample_item 7 "सेयर बजार"]))
         (ParseFeed []) None))).
Proof.
  replace (ids_obj _) with ["json_7"; "json_7"] by (vm_compute; reflexivity).
  intros [Hfresh _]%NoDup_cons. apply Hfresh, list_elem_of_here.
Qed.

Lemma appended_ids_come_from_queue_witness :
  NoDup (ids_obj (final_state
    (run always_rewrites always_posts key_auth
       (HttpJson (mkBody (PyBool true)
          [sample_item 7 "सेयर बजार"; sample_item 9 "अर्थतन्त्र"]))
       (ParseFeed [sample_entry "http://a/2"]) (Some ["json_8"])))).
Proof.
  set (r := run _ _ _ _ _ _).
  destruct (appended_ids_come_from_queue always_rewrites always_posts
              MAX_POSTS_PER_RUN key_auth
              (HttpJson (mkBody (PyBool true)
                 [sample_item 7 "सेयर बजार"; sample_item 9 "अर्थतन्त्र"]))
              (ParseFeed [sample_entry "http://a/2"]) (Some ["json_8"])
              3 (final_state r))
    as (rss & app & Hrss & Hobj & _ & Hfresh & Hnd).
  - vm_compute. reflexivity.
  - rewrite Hobj. simpl. apply NoDup_cons. split.
    + intros Hin. by apply (Hfresh _ Hin), list_elem_of_here.
    + apply Hnd. vm_compute in Hrss. injection Hrss as <-.
      apply (bool_decide_unpack _). vm_compute. exact I.
Defined.


Lemma missing_service_aborts_witness :
  run always_rewrites always_posts no_auth
    (HttpJson (mkBody (PyBool true) [sample_item 7 "सेयर बजार"]))
    (ParseFeed [sample_entry "http://a/2"]) (Some ["json_8"])
  = Aborted (mkState [] (Some ["json_8"]) []).
Proof.
  apply (missing_service_aborts always_rewrites always_posts
           MAX_POSTS_PER_RUN no_auth).
  reflexivity.
Defined.

(** * Further properties of the adapters *)

Lemma json_loop_omap items posted_ids :
  json_loop items posted_ids [] = omap (kept_item posted_ids) items.
Proof.
  induction items as [|item rest IH]; [done|].
  rewrite json_loop_cons, IH. unfold kept_item at 2. simpl.
  by destruct (py_in _ _ && _).
Qed.

Lemma omap_all_None {A B} (f : A → option B) (l : list A) :
  (∀ x, x ∈ l → f x = None) → omap f l = [].
Proof.
  induction l as [|x l IH]; intros Hall; [done|].
  simpl. rewrite (Hall x) by apply list_elem_of_here.
  apply IH. intros y Hy. apply Hall. by apply list_elem_of_further.
Qed.

Lemma elem_of_omap_Some {A B} (f : A → option B) (l : list A) x y :
  x ∈ l → f x = Some y → y ∈ omap f l.
Proof. intros Hx Hy. apply list_elem_of_omap. by exists x. Qed.

(** The API adapter walks the response in order and turns each item into
    at most one article: the output is the list of kept items, its ids are
    a subsequence of the item ids, and nothing comes out of a body whose
    [success] is not true. *)
Theorem fetch_json_news_in_order (data : api_body) (posted_ids : list string) :
  fetch_json_news (HttpJson data) posted_ids
    = (if truthy (body_success data)
       then omap (kept_item posted_ids) (body_data data) else []) ∧
  unique_id <$> fetch_json_news (HttpJson data) posted_ids
    `sublist_of` (λ item, "json_" +:+ py_str (item_id item)) <$> body_data data ∧
  length (fetch_json_news (HttpJson data) posted_ids) ≤ length (body_data data).
Proof.
  assert (∀ items,
            unique_id <$> omap (kept_item posted_ids) items
              `sublist_of` (λ item, "json_" +:+ py_str (item_id item)) <$> items)
    as Hsub.
  { induction items as [|item rest IH]; [done|]. simpl.
    unfold kept_item at 1. destruct (py_in _ _ && _); simpl.
    - by apply sublist_skip.
    - by apply sublist_cons. }
  simpl. rewrite json_loop_omap.
  destruct (truthy (body_success data)); simpl.
  - split; [done|]. split; [apply Hsub|].
    specialize (Hsub (body_data data)).
    apply sublist_length in Hsub. by rewrite !length_fmap in Hsub.
  - split; [done|]. split; [apply sublist_nil_l|lia].
Qed.

Lemma rss_loop_cons entry rest posted_ids :
  rss_loop (entry :: rest) posted_ids [] =
    if entry_raises posted_ids entry then Raised
    else match rss_loop rest posted_ids [] with
         | Returned arts =>
             Returned (from_option (λ a, [a]) [] (kept_entry posted_ids entry)
                         ++ arts)
         | Raised => Raised
         end.
Proof.
  simpl. unfold entry_raises, kept_entry.
  destruct (entry_link entry) as [lnk|]; [|done].
  case_bool_decide as Hfresh; simpl.
  - destruct (entry_body entry) as [body|]; [|done].
    destruct (entry_title entry) as [t|]; [|done].
    rewrite rss_loop_acc. done.
  - destruct (rss_loop rest posted_ids []) as [arts|]; [|done].
    by destruct (entry_body entry), (entry_title entry).
Qed.

Lemma rss_loop_raises_iff entries posted_ids :
  rss_loop entries posted_ids [] = Raised
  ↔ Exists (λ entry, entry_raises posted_ids entry = true) entries.
Proof.
  induction entries as [|entry rest IH].
  - simpl. split; [done|]. by intros ?%Exists_nil.
  - rewrite rss_loop_cons, Exists_cons, <-IH.
    destruct (entry_raises posted_ids entry); [by split; [left|]|].
    destruct (rss_loop rest posted_ids []).
    + split; [done|]. by intros [|].
    + split; [by right|done].
Qed.

Lemma rss_loop_omap entries posted_ids arts :
  rss_loop entries posted_ids [] = Returned arts →
  arts = omap (kept_entry posted_ids) entries.
Proof.
  revert arts. induction entries as [|entry rest IH]; intros arts.
  - simpl. by intros [= <-].
  - rewrite rss_loop_cons.
    destruct (entry_raises posted_ids entry); [done|].
    destruct (rss_loop rest posted_ids []) as [arts'|]; [|done].
    intros [= <-]. rewrite (IH arts' eq_refl). simpl.
    by destruct (kept_entry posted_ids entry).
Qed.

(** The feed adapter lets an exception escape exactly when the feed was
    parsed and one of its entries has no link, or is new and has no title or
    neither a summary nor a content block; an entry already in the dedup set
    is never read beyond its link.  Otherwise it returns the kept entries in
    feed order. *)
Theorem fetch_rss_news_raises_iff (feed : parse_reply) (posted_ids : list string) :
  (fetch_rss_news feed posted_ids = Raised
   ↔ ∃ entries, feed = ParseFeed entries ∧
       Exists (λ entry, entry_raises posted_ids entry = true) entries) ∧
  (∀ entries arts,
     feed = ParseFeed entries →
     fetch_rss_news feed posted_ids = Returned arts →
     arts = omap (kept_entry posted_ids) entries).
Proof.
  split.
  - destruct feed as [|entries]; simpl.
    + split; [done|]. by intros (entries & ? & _).
    + rewrite rss_loop_raises_iff. split.
      * intros Hex. by exists entries.
      * by intros (entries' & [= <-] & Hex).
  - intros entries arts ->. simpl. apply rss_loop_omap.
Qed.

Lemma fetch_rss_news_raises_iff_witness :
  fetch_rss_news
    (ParseFeed [mkEntry (Some "http://a/1") None None [];
                sample_entry "http://a/2";
                mkEntry (Some "http://a/3") (Some "Brief") None ["Full text"]])
    ["rss_http://a/1"]
  = Returned
      [sample_feed_article "http://a/2";
       mkArticle "rss_http://a/3" (PyStr "Brief") (PyStr "Full text")
         (PyStr "http://a/3") PyNone "nepsestock.com"].
Proof.
  set (feed := ParseFeed _).
  destruct (fetch_rss_news feed ["rss_http://a/1"]) as [arts|] eqn:Hfetch.
  - destruct (fetch_rss_news_raises_iff feed ["rss_http://a/1"]) as [_ Hret].
    rewrite (Hret _ arts eq_refl Hfetch). vm_compute. reflexivity.
  - vm_compute in Hfetch. discriminate Hfetch.
Defined.

(** Fetching again once the ids of everything fetched are in the dedup set
    yields nothing, from either adapter. *)
Theorem refetch_after_recording_is_empty :
  (∀ reply posted_ids,
     fetch_json_news reply
       (posted_ids ++ (unique_id <$> fetch_json_news reply posted_ids)) = []) ∧
  (∀ feed posted_ids arts,
     fetch_rss_news feed posted_ids = Returned arts →
     fetch_rss_news feed (posted_ids ++ (unique_id <$> arts)) = Returned []).
Proof.
  split.
  - intros [|data] posted_ids; [done|]. simpl.
    destruct (negb _); [done|]. rewrite !json_loop_omap.
    apply omap_all_None. intros item Hitem.
    destruct (kept_item posted_ids item) as [a|] eqn:Hkept.
    + pose proof (elem_of_omap_Some _ _ _ _ Hitem Hkept) as Ha.
      unfold kept_item in *.
      destruct (py_in _ _); simpl in *; [|done].
      case_bool_decide; [|done]. injection Hkept as <-.
      rewrite bool_decide_eq_false_2; [done|].
      intros Hfresh. apply Hfresh, elem_of_app. right.
      by apply (list_elem_of_fmap_2 unique_id) in Ha.
    + unfold kept_item in *.
      destruct (py_in _ _); simpl in *; [|done].
      case_bool_decide as Hin; [done|].
      rewrite bool_decide_eq_false_2; [done|].
      intros Hfresh. apply Hfresh, elem_of_app. by left.
  - intros [|entries] posted_ids arts; simpl; [by intros [= <-]|].
    intros Hret. pose proof (rss_loop_omap _ _ _ Hret) as ->.
    assert (¬ Exists (λ entry, entry_raises posted_ids entry = true) entries)
      as Hok by (rewrite <-rss_loop_raises_iff, Hret; done).
    clear Hret.
    set (posted' := posted_ids ++ _).
    assert (∀ entry, entry ∈ entries →
              entry_raises posted' entry = false ∧
              kept_entry posted' entry = None) as Hall.
    { intros entry Hentry.
      assert (entry_raises posted_ids entry = false) as Hno.
      { destruct (entry_raises posted_ids entry) eqn:Hr; [|done].
        exfalso. apply Hok, Exists_exists. by exists entry. }
      destruct (kept_entry posted_ids entry) as [a|] eqn:Hkept.
      - pose proof (elem_of_omap_Some _ _ _ _ Hentry Hkept) as Ha.
        apply (list_elem_of_fmap_2 unique_id) in Ha.
        unfold entry_raises, kept_entry in *.
        destruct (entry_link entry) as [lnk|]; [|done].
        destruct (entry_body entry) as [body|]; [|done].
        destruct (entry_title entry) as [t|]; [|done].
        case_bool_decide; [|done]. injection Hkept as <-. simpl in Ha.
        rewrite bool_decide_eq_false_2; [done|].
        intros Hfresh. apply Hfresh, elem_of_app. by right.
      - unfold entry_raises, kept_entry in *.
        destruct (entry_link entry) as [lnk|]; [|done].
        case_bool_decide as Hin.
        + destruct (entry_body entry) as [body|]; [|done].
          destruct (entry_title entry) as [t|]; done.
        + rewrite bool_decide_eq_false_2.
          * by destruct (entry_body entry), (entry_title entry).
          * intros Hfresh. apply Hfresh, elem_of_app. by left. }
    clearbody posted'. clear Hok.
    induction entries as [|entry rest IH]; [done|].
    rewrite rss_loop_cons.
    destruct (Hall entry) as [-> ->]; [apply list_elem_of_here|].
    rewrite IH; [done|].
    intros e He. apply Hall. by apply list_elem_of_further.
Qed.

Lemma refetch_after_recording_is_empty_witness :
  fetch_rss_news
    (ParseFeed [sample_entry "http://a/1"; sample_entry "http://a/2"])
    (["rss_http://a/1"] ++ ["rss_http://a/2"])
  = Returned [].
Proof.
  destruct refetch_after_recording_is_empty as [_ Hrss].
  apply (Hrss (ParseFeed [sample_entry "http://a/1"; sample_entry "http://a/2"])
           ["rss_http://a/1"] [sample_feed_article "http://a/2"]).
  vm_compute. reflexivity.
Defined.

Lemma kept_entry_id posted_ids entry a :
  kept_entry posted_ids entry = Some a →
  ∃ lnk t body,
    entry_link entry = Some lnk ∧ entry_title entry = Some t ∧
    entry_body entry = Returned body ∧
    a = mkArticle ("rss_" +:+ lnk) (PyStr t) (PyStr body) (PyStr lnk) PyNone
          "nepsestock.com".
Proof.
  unfold kept_entry.
  destruct (entry_link entry) as [lnk|]; [|done].
  destruct (entry_body entry) as [body|]; [|done].
  destruct (entry_title entry) as [t|]; [|done].
  case_bool_decide; [|done]. intros [= <-]. by exists lnk, t, body.
Qed.

Lemma fetch_rss_news_origin feed posted_ids arts a :
  fetch_rss_news feed posted_ids = Returned arts → a ∈ arts →
  ∃ lnk t body,
    a = mkArticle ("rss_" +:+ lnk) (PyStr t) (PyStr body) (PyStr lnk) PyNone
          "nepsestock.com".
Proof.
  destruct feed as [|entries]; simpl.
  - intros [= <-]. by intros ?%not_elem_of_nil.
  - intros ->%rss_loop_omap (entry & _ & Hkept)%list_elem_of_omap.
    destruct (kept_entry_id _ _ _ Hkept) as (lnk & t & body & _ & _ & _ & ->).
    by exists lnk, t, body.
Qed.

(** An id tells where the article came from: no id of the API adapter is
    an id of the feed adapter, two kept API items with different integer
    ids get different unique_ids, and two kept feed entries get the same
    unique_id only when they carry the same link. *)
Theorem unique_id_identifies_item :
  (∀ reply posted_ids a feed posted_ids' arts b,
     a ∈ fetch_json_news reply posted_ids →
     fetch_rss_news feed posted_ids' = Returned arts → b ∈ arts →
     unique_id a ≠ unique_id b) ∧
  (∀ posted_ids item1 item2 a1 a2 n m,
     kept_item posted_ids item1 = Some a1 →
     kept_item posted_ids item2 = Some a2 →
     item_id item1 = PyInt n → item_id item2 = PyInt m →
     unique_id a1 = unique_id a2 → n = m) ∧
  (∀ posted_ids entry1 entry2 a1 a2,
     kept_entry posted_ids entry1 = Some a1 →
     kept_entry posted_ids entry2 = Some a2 →
     unique_id a1 = unique_id a2 → entry_link entry1 = entry_link entry2).
Proof.
  split; [|split].
  - intros [|data] posted_ids a feed posted_ids' arts b; simpl;
      [by intros ?%not_elem_of_nil|].
    destruct (negb _); [by intros ?%not_elem_of_nil|].
    intros (item & _ & _ & ->)%json_loop_origin Hfetch Hb.
    destruct (fetch_rss_news_origin _ _ _ _ Hfetch Hb) as (lnk & t & body & ->).
    simpl. discriminate.
  - intros posted_ids item1 item2 a1 a2 n m. unfold kept_item.
    destruct (_ && _); [|done]. destruct (_ && _); [|done].
    intros [= <-] [= <-] -> ->. simpl.
    intros Heq%(inj (String.append "json_")). by apply (inj pretty).
  - intros posted_ids entry1 entry2 a1 a2
      (l1 & ? & ? & -> & _ & _ & ->)%kept_entry_id
      (l2 & ? & ? & -> & _ & _ & ->)%kept_entry_id.
    simpl. by intros ->%(inj (String.append "rss_")).
Qed.

Lemma unique_id_identifies_item_witness :
  unique_id (sample_article "json_7")
    ≠ unique_id (sample_feed_article "http://a/2").
Proof.
  destruct unique_id_identifies_item as [Hsrc _].
  apply (Hsrc (HttpJson (mkBody (PyBool true) [sample_item 7 "सेयर बजार"])) []
           (sample_article "json_7")
           (ParseFeed [sample_entry "http://a/2"]) []
           [sample_feed_article "http://a/2"] (sample_feed_article "http://a/2")).
  - vm_compute. apply list_elem_of_here.
  - vm_compute. reflexivity.
  - apply list_elem_of_here.
Defined.

(** * Further properties of the dedup store *)

(** Saving and loading again: the file a save leaves is a suffix of the
    caller's list after the append, ends with the id just saved, and has as
    many entries as that list up to 200. *)
Theorem saved_id_is_last_in_file (post_id : string) (st : state) :
  last (get_posted_ids (db_file (save_posted_id post_id st).2)) = Some post_id ∧
  get_posted_ids (db_file (save_posted_id post_id st).2)
    `suffix_of` ids_obj (save_posted_id post_id st).2 ∧
  length (get_posted_ids (db_file (save_posted_id post_id st).2))
    = 200 `min` (length (ids_obj st) + 1).
Proof.
  rewrite save_posted_id_eq.
  cbn [snd db_file ids_obj get_posted_ids]. unfold last_200.
  rewrite length_app. cbn [length]. split; [|split].
  - rewrite drop_app_le by lia. apply last_snoc.
  - apply suffix_drop.
  - rewrite length_drop, length_app. cbn [length]. lia.
Qed.

Lemma fetch_rss_news_fresh feed posted_ids arts a :
  fetch_rss_news feed posted_ids = Returned arts →
  a ∈ arts → unique_id a ∈ posted_ids → False.
Proof.
  destruct feed as [|entries]; simpl.
  - intros [= <-]. by intros ?%not_elem_of_nil.
  - intros Hloop Ha Hin. by apply (rss_loop_fresh _ _ _ _ Hloop Ha).
Qed.

(** * Further properties of the run loop *)

Lemma slept_app tr1 tr2 : slept (tr1 ++ tr2) = slept tr1 + slept tr2.
Proof.
  induction tr1 as [|e tr1 IH]; [done|].
  destruct e; simpl; rewrite ?IH; lia.
Qed.

Section RunLoopEffects.

Variable gemini_reply : nat → pyval → pyval → pyval → option (string * string).
Variable posts_insert : nat → Post → bool.

Local Abbreviation rewrite_of i a :=
  (rewrite_with_gemini gemini_reply i (title a) (content a) (link a)
     (source a) (date a)).
Local Abbreviation iteration' := (iteration gemini_reply posts_insert).
Local Abbreviation process' := (process gemini_reply posts_insert).
Local Abbreviation run_with' := (run_with gemini_reply posts_insert).
Local Abbreviation publishes' := (publishes gemini_reply posts_insert).
Local Abbreviation published_ids' := (published_ids gemini_reply posts_insert).

(** One pass of the loop body, with its effects in the order they occur. *)
Lemma iteration_eq service i a count st :
  iteration' service i a count st =
    match rewrite_of i a with
    | None => (count, mkState (ids_obj st) (db_file st) (trace st ++ [ERewrite a]))
    | Some p =>
        if posts_insert i p then
          (S count,
           mkState (ids_obj st ++ [unique_id a])
             (Some (last_200 (ids_obj st ++ [unique_id a])))
             (trace st ++ [ERewrite a; EUsersGet; EPostsInsert p;
                           EWriteDb (last_200 (ids_obj st ++ [unique_id a]));
                           ESleep 10]))
        else
          (count,
           mkState (ids_obj st) (db_file st)
             (trace st ++ [ERewrite a; EUsersGet; EPostsInsert p]))
    end.
Proof.
  unfold iteration, create_post.
  destruct (rewrite_of i a) as [[t c]|]; [|done].
  cbn [post_title post_content].
  destruct (posts_insert i (mkPost t c)).
  - rewrite save_posted_id_eq. unfold log. simpl.
    by rewrite <-!app_assoc.
  - unfold log. simpl. by rewrite <-!app_assoc.
Qed.

Lemma publishes_eq i a :
  publishes' i a =
    match rewrite_of i a with
    | Some p => posts_insert i p
    | None => false
    end.
Proof.
  unfold publishes. by destruct (rewrite_of i a) as [[t c]|].
Qed.

(** When the rewrite of article X fails, the pass for X calls nothing else:
    no request to the platform, no write, no pause; count, dedup list and
    file stay as they were and the loop goes on with the next article. *)
Theorem rewrite_failure_keeps_store (cap : nat) (service : Service) (i : nat)
    (X : Article) (rest : list Article) (count : nat) (st : state) :
  count < cap →
  rewrite_of i X = None →
  (iteration' service i X count st).1 = count ∧
  ids_obj (iteration' service i X count st).2 = ids_obj st ∧
  db_file (iteration' service i X count st).2 = db_file st ∧
  trace (iteration' service i X count st).2 = trace st ++ [ERewrite X] ∧
  process' cap service i (X :: rest) count st
    = process' cap service (S i) rest count (iteration' service i X count st).2.
Proof.
  intros Hcap Hrw. simpl process.
  rewrite bool_decide_eq_false_2 by lia.
  rewrite iteration_eq, Hrw. done.
Qed.

(** When the rewrite of article X and the publish call both succeed, the
    pass for X asks for the user, inserts the post, appends X's id to the
    dedup list, writes the last 200 entries of the list to the file and
    pauses 10 seconds, in this order; the count goes up by one. *)
Theorem publish_success_records_id (cap : nat) (service : Service) (i : nat)
    (X : Article) (rest : list Article) (count : nat) (st : state) (p : Post) :
  count < cap →
  rewrite_of i X = Some p →
  posts_insert i p = true →
  (iteration' service i X count st).1 = S count ∧
  ids_obj (iteration' service i X count st).2 = ids_obj st ++ [unique_id X] ∧
  db_file (iteration' service i X count st).2
    = Some (last_200 (ids_obj st ++ [unique_id X])) ∧
  trace (iteration' service i X count st).2
    = trace st ++ [ERewrite X; EUsersGet; EPostsInsert p;
                   EWriteDb (last_200 (ids_obj st ++ [unique_id X]));
                   ESleep 10] ∧
  process' cap service i (X :: rest) count st
    = process' cap service (S i) rest (S count)
        (iteration' service i X count st).2.
Proof.
  intros Hcap Hrw Hpost. simpl process.
  rewrite bool_decide_eq_false_2 by lia.
  rewrite iteration_eq, Hrw, Hpost. done.
Qed.

(** The loop appends the ids of the articles it publishes, in queue order,
    until the count reaches the cap. *)
Lemma process_published cap service queue : ∀ i count st,
  (process' cap service i queue count st).1
    = count + length (take (cap - count) (published_ids' i queue)) ∧
  ids_obj (process' cap service i queue count st).2
    = ids_obj st ++ take (cap - count) (published_ids' i queue) ∧
  db_file (process' cap service i queue count st).2
    = match take (cap - count) (published_ids' i queue) with
      | [] => db_file st
      | _ :: _ =>
          Some (last_200
                  (ids_obj st ++ take (cap - count) (published_ids' i queue)))
      end.
Proof.
  induction queue as [|a rest IH]; intros i count st.
  - simpl. rewrite take_nil. simpl. by rewrite Nat.add_0_r, app_nil_r.
  - simpl process. case_bool_decide as Hcap.
    + replace (cap - count) with 0 by lia. simpl.
      by rewrite Nat.add_0_r, app_nil_r.
    + simpl published_ids. rewrite publishes_eq, iteration_eq.
      destruct (rewrite_of i a) as [p|]; [destruct (posts_insert i p)|].
      * destruct (IH (S i) (S count)
          (mkState (ids_obj st ++ [unique_id a])
             (Some (last_200 (ids_obj st ++ [unique_id a])))
             (trace st ++ [ERewrite a; EUsersGet; EPostsInsert p;
                           EWriteDb (last_200 (ids_obj st ++ [unique_id a]));
                           ESleep 10])))
          as (Hc & Hobj & Hfile).
        rewrite Hc, Hobj, Hfile.
        replace (cap - count) with (S (cap - S count)) by lia.
        simpl. rewrite <-app_assoc. simpl.
        split; [lia|]. split; [done|].
        by destruct (take _ _).
      * match goal with |- context [process' _ _ _ _ ?c ?s] =>
          exact (IH (S i) c s)
        end.
      * match goal with |- context [process' _ _ _ _ ?c ?s] =>
          exact (IH (S i) c s)
        end.
Qed.

(** After a run that reaches its end, the dedup list is the loaded list
    followed by the ids of the first [cap] articles of the queue (API
    articles, then feed articles) whose rewrite and publish both succeed;
    the count is their number.  The file is untouched when there are none,
    and holds the last 200 entries of that list otherwise. *)
Theorem run_records_published_ids (cap : nat) (auth : auth_env)
    (http : http_reply) (feed : parse_reply) (db : option (list string))
    (N : nat) (st : state) :
  run_with' cap auth http feed db = Done N st →
  ∃ rss,
    fetch_rss_news feed (get_posted_ids db) = Returned rss ∧
    let queue := fetch_json_news http (get_posted_ids db) ++ rss in
    let app := take cap (published_ids' 0 queue) in
    N = length app ∧
    ids_obj st = get_posted_ids db ++ app ∧
    db_file st = match app with
                 | [] => db
                 | _ :: _ => Some (last_200 (get_posted_ids db ++ app))
                 end.
Proof.
  intros (service & rss & _ & Hrss & Hp)%run_with_Done.
  exists rss. split; [done|]. intros queue app.
  destruct (process_published cap service queue 0 0
              (mkState (get_posted_ids db) db
                 [ERequestsGet JSON_URL; EFeedParse RSS_URL]))
    as (Hc & Hobj & Hfile).
  fold queue in Hp. rewrite Hp in Hc, Hobj, Hfile.
  rewrite Nat.sub_0_r in Hc, Hobj, Hfile. fold app in Hc, Hobj, Hfile.
  simpl in Hc, Hobj, Hfile.
  split; [done|]. split; [done|].
  rewrite Hfile. by destruct app.
Qed.

Ltac trace_counts :=
  simpl trace;
  rewrite !attempted_app, !slept_app, !writes_app, !submitted_app;
  simpl; rewrite <-?app_assoc, ?length_app; simpl.

(** The loop's bookkeeping: [n] articles attempted, [k] posts submitted,
    [d] of them published. *)
Lemma process_counts cap service queue : ∀ i count st,
  ∃ n d k,
    (process' cap service i queue count st).1 = count + d ∧
    attempted (trace (process' cap service i queue count st).2)
      = attempted (trace st) ++ take n queue ∧
    slept (trace (process' cap service i queue count st).2)
      = slept (trace st) + 10 * d ∧
    length (writes (trace (process' cap service i queue count st).2))
      = length (writes (trace st)) + d ∧
    length (submitted (trace (process' cap service i queue count st).2))
      = length (submitted (trace st)) + k ∧
    d ≤ k ∧ k ≤ n ∧ n ≤ length queue.
Proof.
  induction queue as [|a rest IH]; intros i count st.
  - exists 0, 0, 0. simpl. rewrite app_nil_r. repeat split; lia.
  - simpl process. case_bool_decide as Hcap.
    + exists 0, 0, 0. simpl. rewrite app_nil_r. repeat split; lia.
    + rewrite iteration_eq.
      destruct (rewrite_of i a) as [p|]; [destruct (posts_insert i p)|].
      * match goal with |- context [process _ _ _ _ _ _ ?c ?s] =>
          destruct (IH (S i) c s)
            as (n & d & k & Hc & Hatt & Hs & Hw & Hsub & Hdk & Hkn & Hn)
        end.
        rewrite Hc, Hatt, Hs, Hw, Hsub. trace_counts.
        exists (S n), (S d), (S k). simpl.
        repeat split; try done; lia.
      * match goal with |- context [process _ _ _ _ _ _ ?c ?s] =>
          destruct (IH (S i) c s)
            as (n & d & k & Hc & Hatt & Hs & Hw & Hsub & Hdk & Hkn & Hn)
        end.
        rewrite Hc, Hatt, Hs, Hw, Hsub. trace_counts.
        exists (S n), d, (S k). simpl.
        repeat split; try done; lia.
      * match goal with |- context [process _ _ _ _ _ _ ?c ?s] =>
          destruct (IH (S i) c s)
            as (n & d & k & Hc & Hatt & Hs & Hw & Hsub & Hdk & Hkn & Hn)
        end.
        rewrite Hc, Hatt, Hs, Hw, Hsub. trace_counts.
        exists (S n), d, k. simpl.
        repeat split; try done; lia.
Qed.

(** A run that reaches its end has written the file once per publish and
    paused 10 seconds after each publish, the last one included; it has
    submitted at least as many posts as it published and attempted at least
    as many articles as it submitted, none of them outside the queue. *)
Theorem run_pauses_after_each_publish (cap : nat) (auth : auth_env)
    (http : http_reply) (feed : parse_reply) (db : option (list string))
    (N : nat) (st : state) :
  run_with' cap auth http feed db = Done N st →
  slept (trace st) = 10 * N ∧
  length (writes (trace st)) = N ∧
  N ≤ length (submitted (trace st)) ∧
  length (submitted (trace st)) ≤ length (attempted (trace st)) ∧
  ∃ rss,
    fetch_rss_news feed (get_posted_ids db) = Returned rss ∧
    attempted (trace st)
      `prefix_of` fetch_json_news http (get_posted_ids db) ++ rss.
Proof.
  intros (service & rss & _ & Hrss & Hp)%run_with_Done.
  destruct (process_counts cap service
              (fetch_json_news http (get_posted_ids db) ++ rss) 0 0
              (mkState (get_posted_ids db) db
                 [ERequestsGet JSON_URL; EFeedParse RSS_URL]))
    as (n & d & k & Hc & Hatt & Hs & Hw & Hsub & Hdk & Hkn & Hn).
  rewrite Hp in Hc, Hatt, Hs, Hw, Hsub. simpl in *. subst N.
  rewrite Hs, Hw, Hsub, Hatt, length_take.
  repeat split; try lia.
  exists rss. split; [done|].
  exists (drop n (fetch_json_news http (get_posted_ids db) ++ rss)).
  by rewrite take_drop.
Qed.

(** When the queue is no longer than the cap, every fetched article is
    attempted, in queue order: API articles first, feed articles after. *)
Theorem short_queue_is_fully_attempted (cap : nat) (auth : auth_env)
    (http : http_reply) (feed : parse_reply) (db : option (list string))
    (N : nat) (st : state) (rss : list Article) :
  run_with' cap auth http feed db = Done N st →
  fetch_rss_news feed (get_posted_ids db) = Returned rss →
  length (fetch_json_news http (get_posted_ids db) ++ rss) ≤ cap →
  attempted (trace st) = fetch_json_news http (get_posted_ids db) ++ rss.
Proof.
  intros (service & rss' & _ & Hrss & Hp)%run_with_Done Hrss' Hlen.
  rewrite Hrss in Hrss'. injection Hrss' as ->.
  destruct (process_spec gemini_reply posts_insert cap service
              (fetch_json_news http (get_posted_ids db) ++ rss) 0 0
              (mkState (get_posted_ids db) db
                 [ERequestsGet JSON_URL; EFeedParse RSS_URL]))
    as (n & app & st' & Hp' & Hn & Hatt & _ & Hsub & _ & _ & _ & Hstop & _).
  rewrite Hp in Hp'. injection Hp' as -> <-. simpl in *.
  apply sublist_length in Hsub. rewrite length_fmap, length_take in Hsub.
  rewrite Hatt. apply take_ge.
  destruct (decide (n < length (fetch_json_news http (get_posted_ids db) ++ rss)))
    as [Hlt|]; [|lia].
  specialize (Hstop Hlt). lia.
Qed.

(** What a run with at most 200 publishes has published is in the file it
    leaves, so the next run, whatever the sources answer, queues none of
    it. *)
Theorem next_run_skips_published (cap : nat) (auth : auth_env)
    (http : http_reply) (feed : parse_reply) (db : option (list string))
    (N : nat) (st : state) :
  run_with' cap auth http feed db = Done N st →
  N ≤ 200 →
  ∀ x, x ∈ drop (length (get_posted_ids db)) (ids_obj st) →
    x ∈ get_posted_ids (db_file st) ∧
    (∀ http' a, a ∈ fetch_json_news http' (get_posted_ids (db_file st)) →
                unique_id a ≠ x) ∧
    (∀ feed' arts a,
       fetch_rss_news feed' (get_posted_ids (db_file st)) = Returned arts →
       a ∈ arts → unique_id a ≠ x).
Proof.
  intros (service & rss & _ & _ & Hp)%run_with_Done HN x Hx.
  destruct (process_published cap service
              (fetch_json_news http (get_posted_ids db) ++ rss) 0 0
              (mkState (get_posted_ids db) db
                 [ERequestsGet JSON_URL; EFeedParse RSS_URL]))
    as (HNapp & Hobj & Hfile).
  rewrite Hp, Nat.sub_0_r in HNapp, Hobj, Hfile.
  simpl in HNapp, Hobj, Hfile.
  set (app := take cap _) in *.
  rewrite Hobj, drop_app_length in Hx.
  assert (x ∈ get_posted_ids (db_file st)) as Hin.
  { rewrite Hfile. destruct app as [|y app'] eqn:Happ;
      [by apply not_elem_of_nil in Hx|].
    simpl. unfold last_200. rewrite length_app.
    rewrite drop_app.
    apply elem_of_app. right.
    replace (length (get_posted_ids db) + length (y :: app') - 200
               - length (get_posted_ids db)) with 0 by lia.
    done. }
  split; [done|]. split.
  - intros http' a Ha <-. by apply fetch_json_news_fresh in Ha.
  - intros feed' arts a Hfetch Ha <-.
    destruct fetch_rss_news_fresh with (1 := Hfetch) (2 := Ha). done.
Qed.

(** With a service at hand, a feed entry on which the feed adapter raises
    ends the run in an uncaught exception before any rewrite, post, write
    or pause: the API articles already fetched are dropped and the file is
    as it was. *)
Theorem malformed_feed_entry_crashes_run (cap : nat) (auth : auth_env)
    (service : Service) (http : http_reply) (entries : list feed_entry)
    (db : option (list string)) :
  get_service auth = Some service →
  Exists (λ entry, entry_raises (get_posted_ids db) entry = true) entries →
  ∃ st,
    run_with' cap auth http (ParseFeed entries) db = Crashed st ∧
    db_file st = db ∧
    attempted (trace st) = [] ∧
    submitted (trace st) = [] ∧
    writes (trace st) = [] ∧
    slept (trace st) = 0.
Proof.
  intros Hauth Hex%rss_loop_raises_iff.
  unfold run_with. rewrite Hauth. simpl. rewrite Hex.
  by eexists.
Qed.

(** A fetch failure that an adapter catches counts as an empty answer: the
    adapter returns an empty sequence, and the run is the run that an API
    answering with no items, or a feed without entries, would give. *)
Theorem caught_fetch_failure_acts_as_empty_answer (cap : nat) (auth : auth_env)
    (http : http_reply) (feed : parse_reply) (db : option (list string)) :
  (json_failed http →
   (∀ posted_ids, fetch_json_news http posted_ids = []) ∧
   run_with' cap auth http feed db
     = run_with' cap auth (HttpJson (mkBody (PyBool true) [])) feed db) ∧
  (∀ posted_ids, fetch_rss_news ParseRaised posted_ids = Returned []) ∧
  run_with' cap auth http ParseRaised db
    = run_with' cap auth http (ParseFeed []) db.
Proof.
  split; [|done].
  intros Hfail.
  assert (∀ posted_ids, fetch_json_news http posted_ids = []) as Hnil.
  { intros posted_ids. destruct http as [|data]; simpl in *; [done|].
    by rewrite Hfail. }
  split; [done|]. unfold run_with. by rewrite Hnil.
Qed.

(** The run stops for want of a service exactly when the service account
    key is set and its setup fails, whatever the local files offer, or when
    no key is set and neither the saved token nor the browser flow gives a
    client. *)
Theorem run_aborts_iff (cap : nat) (auth : auth_env) (http : http_reply)
    (feed : parse_reply) (db : option (list string)) :
  (∃ st, run_with' cap auth http feed db = Aborted st)
  ↔ if key_is_set (SERVICE_ACCOUNT_KEY auth)
    then service_account_login auth = None
    else (token_pickle_exists auth = false ∨ token_pickle_login auth = None) ∧
         (client_secret_exists auth = false ∨ browser_login auth = None).
Proof.
  assert (get_service auth = None
          ↔ if key_is_set (SERVICE_ACCOUNT_KEY auth)
            then service_account_login auth = None
            else (token_pickle_exists auth = false ∨ token_pickle_login auth = None) ∧
                 (client_secret_exists auth = false ∨ browser_login auth = None))
    as <-.
  { unfold get_service.
    destruct (key_is_set (SERVICE_ACCOUNT_KEY auth)); [done|].
    destruct (token_pickle_exists auth), (token_pickle_login auth),
      (client_secret_exists auth), (browser_login auth);
      intuition congruence. }
  unfold run_with.
  destruct (get_service auth) as [service|].
  - destruct (fetch_rss_news _ _); [destruct (process' _ _ _ _ _ _)|];
      (split; [by intros [st ?]|done]).
  - split; [done|]. intros _. by eexists.
Qed.

(** A post made from a feed article never carries a date line: its content
    is the rewritten body followed by the link back to the entry under the
    name nepsestock.com. *)
Theorem feed_post_has_no_date_line (feed : parse_reply)
    (posted_ids : list string) (arts : list Article) (a : Article) (i : nat)
    (p : Post) :
  fetch_rss_news feed posted_ids = Returned arts →
  a ∈ arts →
  rewrite_of i a = Some p →
  ∃ lnk ai_title ai_body,
    unique_id a = "rss_" +:+ lnk ∧
    gemini_reply i (title a) (content a) PyNone = Some (ai_title, ai_body) ∧
    post_title p = ai_title ∧
    post_content p
      = ai_body +:+ ("<br/><br/><br/><br/>Read full news at: <a href='"
                     +:+ (lnk +:+ "'>nepsestock.com</a>")).
Proof.
  intros Hfetch Ha.
  destruct (fetch_rss_news_origin _ _ _ _ Hfetch Ha) as (lnk & t & body & ->).
  unfold rewrite_with_gemini. simpl.
  destruct (gemini_reply i (PyStr t) (PyStr body) PyNone) as [[ai_title ai_body]|];
    [|done].
  intros [= <-]. by exists lnk, ai_title, ai_body.
Qed.

End RunLoopEffects.

(** ** Sample runs for the further properties *)

Lemma rewrite_failure_keeps_store_witness :
  let st := mkState ["json_1"] (Some ["json_1"]) [] in
  let r := iteration never_rewrites always_posts BloggerService 0
             (sample_article "json_7") 0 st in
  ids_obj r.2 = ["json_1"] ∧ db_file r.2 = Some ["json_1"] ∧
  trace r.2 = [ERewrite (sample_article "json_7")].
Proof.
  intros st r.
  destruct (rewrite_failure_keeps_store never_rewrites always_posts 999
              BloggerService 0 (sample_article "json_7")
              [sample_article "json_9"] 0 st)
    as (_ & Hobj & Hfile & Htrace & _).
  - lia.
  - reflexivity.
  - split; [exact Hobj|]. split; [exact Hfile|exact Htrace].
Defined.

Lemma publish_success_records_id_witness :
  let st := mkState ["json_1"] (Some ["json_1"]) [] in
  let r := iteration always_rewrites always_posts BloggerService 0
             (sample_article "json_7") 0 st in
  r.1 = 1 ∧ ids_obj r.2 = ["json_1"; "json_7"] ∧
  db_file r.2 = Some ["json_1"; "json_7"].
Proof.
  intros st r.
  edestruct (publish_success_records_id always_rewrites always_posts 999
               BloggerService 0 (sample_article "json_7")
               [sample_article "json_9"] 0 st)
    as (Hcount & Hobj & Hfile & _).
  - lia.
  - vm_compute. reflexivity.
  - reflexivity.
  - split; [exact Hcount|]. split; [exact Hobj|exact Hfile].
Defined.

Lemma run_records_published_ids_witness :
  ids_obj (final_state
    (run rewrites_after_first always_posts key_auth
       (HttpJson (mkBody (PyBool true)
          [sample_item 7 "सेयर बजार"; sample_item 9 "अर्थतन्त्र"]))
       (ParseFeed [sample_entry "http://a/2"]) (Some ["json_8"])))
  = ["json_8"; "json_9"; "rss_http://a/2"].
Proof.
  set (r := run _ _ _ _ _ _).
  destruct (run_records_published_ids rewrites_after_first always_posts
              MAX_POSTS_PER_RUN key_auth
              (HttpJson (mkBody (PyBool true)
                 [sample_item 7 "सेयर बजार"; sample_item 9 "अर्थतन्त्र"]))
              (ParseFeed [sample_entry "http://a/2"]) (Some ["json_8"])
              2 (final_state r))
    as (rss & Hrss & _ & Hobj & _).
  - vm_compute. reflexivity.
  - rewrite Hobj. vm_compute in Hrss. injection Hrss as <-.
    vm_compute. reflexivity.
Defined.

Lemma run_pauses_after_each_publish_witness :
  slept (trace (final_state
    (run rewrites_after_first always_posts key_auth
       (HttpJson (mkBody (PyBool true)
          [sample_item 7 "सेयर बजार"; sample_item 9 "अर्थतन्त्र"]))
       (ParseFeed [sample_entry "http://a/2"]) (Some ["json_8"]))))
  = 20.
Proof.
  set (r := run _ _ _ _ _ _).
  destruct (run_pauses_after_each_publish rewrites_after_first always_posts
              MAX_POSTS_PER_RUN key_auth
              (HttpJson (mkBody (PyBool true)
                 [sample_item 7 "सेयर बजार"; sample_item 9 "अर्थतन्त्र"]))
              (ParseFeed [sample_entry "http://a/2"]) (Some ["json_8"])
              2 (final_state r))
    as (Hslept & _).
  - vm_compute. reflexivity.
  - exact Hslept.
Defined.

Lemma short_queue_is_fully_attempted_witness :
  attempted (trace (final_state
    (run rewrites_after_first always_posts key_auth
       (HttpJson (mkBody (PyBool true)
          [sample_item 7 "सेयर बजार"; sample_item 9 "अर्थतन्त्र"]))
       (ParseFeed [sample_entry "http://a/2"]) (Some ["json_8"]))))
  = [sample_article "json_7"; sample_article "json_9";
     sample_feed_article "http://a/2"].
Proof.
  set (r := run _ _ _ _ _ _).
  etrans.
  - apply (short_queue_is_fully_attempted rewrites_after_first always_posts
             MAX_POSTS_PER_RUN key_auth
             (HttpJson (mkBody (PyBool true)
                [sample_item 7 "सेयर बजार"; sample_item 9 "अर्थतन्त्र"]))
             (ParseFeed [sample_entry "http://a/2"]) (Some ["json_8"])
             2 (final_state r) [sample_feed_article "http://a/2"]).
    + vm_compute. reflexivity.
    + vm_compute. reflexivity.
    + vm_compute. lia.
  - vm_compute. reflexivity.
Defined.

Lemma next_run_skips_published_witness :
  "json_9" ∈ get_posted_ids (db_file (final_state
    (run rewrites_after_first always_posts key_auth
       (HttpJson (mkBody (PyBool true)
          [sample_item 7 "सेयर बजार"; sample_item 9 "अर्थतन्त्र"]))
       (ParseFeed [sample_entry "http://a/2"]) (Some ["json_8"])))).
Proof.
  set (r := run _ _ _ _ _ _).
  apply (next_run_skips_published rewrites_after_first always_posts
           MAX_POSTS_PER_RUN key_auth
           (HttpJson (mkBody (PyBool true)
              [sample_item 7 "सेयर बजार"; sample_item 9 "अर्थतन्त्र"]))
           (ParseFeed [sample_entry "http://a/2"]) (Some ["json_8"])
           2 (final_state r)).
  - vm_compute. reflexivity.
  - lia.
  - vm_compute. apply list_elem_of_here.
Defined.

Lemma malformed_feed_entry_crashes_run_witness :
  ∃ st,
    run always_rewrites always_posts key_auth
      (HttpJson (mkBody (PyBool true) [sample_item 7 "सेयर बजार"]))
      (ParseFeed [sample_entry "http://a/2";
                  mkEntry (Some "http://a/3") None (Some "No title") []])
      None
    = Crashed st ∧
    db_file st = None ∧ attempted (trace st) = [].
Proof.
  destruct (malformed_feed_entry_crashes_run always_rewrites always_posts
              MAX_POSTS_PER_RUN key_auth BloggerService
              (HttpJson (mkBody (PyBool true) [sample_item 7 "सेयर बजार"]))
              [sample_entry "http://a/2";
               mkEntry (Some "http://a/3") None (Some "No title") []]
              None)
    as (st & Hrun & Hfile & Hatt & _).
  - reflexivity.
  - apply Exists_cons_tl, Exists_cons_hd. reflexivity.
  - exists st. split; [exact Hrun|]. split; [exact Hfile|exact Hatt].
Defined.

Lemma caught_fetch_failure_acts_as_empty_answer_witness :
  ids_obj (final_state
    (run always_rewrites always_posts key_auth HttpFailed
       (ParseFeed [sample_entry "http://a/2"]) None))
  = ["rss_http://a/2"].
Proof.
  destruct (caught_fetch_failure_acts_as_empty_answer always_rewrites
              always_posts MAX_POSTS_PER_RUN key_auth HttpFailed
              (ParseFeed [sample_entry "http://a/2"]) None)
    as [Hjson _].
  destruct Hjson as [_ Hrun]; [exact I|].
  unfold run. rewrite Hrun. vm_compute. reflexivity.
Defined.

Lemma feed_post_has_no_date_line_witness :
  ∃ lnk ai_title ai_body,
    unique_id (sample_feed_article "http://a/2") = "rss_" +:+ lnk ∧
    always_rewrites 0 (title (sample_feed_article "http://a/2"))
      (content (sample_feed_article "http://a/2")) PyNone
      = Some (ai_title, ai_body) ∧
    "Title" = ai_title ∧
    "Body<br/><br/><br/><br/>Read full news at: <a href='http://a/2'>nepsestock.com</a>"
      = ai_body +:+ ("<br/><br/><br/><br/>Read full news at: <a href='"
                     +:+ (lnk +:+ "'>nepsestock.com</a>")).
Proof.
  apply (feed_post_has_no_date_line always_rewrites
           (ParseFeed [sample_entry "http://a/2"]) []
           [sample_feed_article "http://a/2"]
           (sample_feed_article "http://a/2") 0
           (mkPost "Title"
              "Body<br/><br/><br/><br/>Read full news at: <a href='http://a/2'>nepsestock.com</a>")).
  - vm_compute. reflexivity.
  - apply list_elem_of_here.
  - vm_compute. reflexivity.
Defined.
